(** * Iterated prisoner's dilemma: a shallow embedding of [agent.py] and [run.py]

    The Python program keeps a list of agent objects, each with two
    dictionaries of per-opponent action lists and a running score, and plays
    every pair of agents once per round.  The embedding below follows the
    source method by method:

    - the two action strings ['cooperate'] and ['defect'] are the two
      constructors of [Action]; [action_key] gives back the string where the
      source uses it as a dictionary key;
    - Python dictionaries are [gmap string _], Python lists are [list _];
      payoffs and scores are integers, the number of rounds is a natural
      number, an entry of the payoff matrix is a pair;
    - every method that mutates an object or may raise is a computation in
      the state-and-exception monad [ST]: the state reached when an
      exception is raised is kept, as in Python;
    - the agent objects live in the list [agents] of the game object and are
      referred to by their position in that list, so that two agents of the
      same name remain two objects;
    - the results of [np.random.choice] are given by a sequence that is part
      of the world.

    The first part of the file holds the definitions, the second part the
    proofs. *)

From stdpp Require Import gmap strings list fin_maps.
From Stdlib Require Import ZArith Lia.

(** ** Exceptions and the monad *)

(** The exceptions the program can raise.  [DanglingReference i] stands for
    the use of a position [i] at which [self.agents] has no object; [run]
    never does that. *)
Inductive Exn : Type :=
  | KeyError (key : string)
  | IndexError
  | ValueError (msg : string)
  | DanglingReference (i : nat).

(** A call returns a value or raises. *)
Inductive outcome (A : Type) : Type :=
  | Return (x : A)
  | Raise (e : Exn).
Arguments Return {A} x.
Arguments Raise {A} e.

(** A computation on a state [S]: the state it leaves and its outcome. *)
Definition ST (S A : Type) : Type := S → S * outcome A.

Definition st_ret {S A} (x : A) : ST S A := λ s, (s, Return x).

Definition st_bind {S A B} (k : A → ST S B) (m : ST S A) : ST S B :=
  λ s, match m s with
       | (s', Return x) => k x s'
       | (s', Raise e) => (s', Raise e)
       end.

Definition raise {S A} (e : Exn) : ST S A := λ s, (s, Raise e).
Definition gets {S A} (f : S → A) : ST S A := λ s, (s, Return (f s)).
Definition modify {S} (f : S → S) : ST S () := λ s, (f s, Return ()).

#[global] Instance ST_ret {S} : MRet (ST S) := @st_ret S.
#[global] Instance ST_bind {S} : MBind (ST S) := @st_bind S.

(** A Python [for x in l: body(x)] over a list that the body does not
    rebind. *)
Fixpoint for_each {S A} (l : list A) (body : A → ST S ()) : ST S () :=
  match l with
  | [] => mret ()
  | x :: l' => body x ;; for_each l' body
  end.

(** ** Actions and Python list indexing *)

Inductive Action : Type := Cooperate | Defect.

#[global] Instance Action_eq_dec : EqDecision Action.
Proof. solve_decision. Defined.

Definition action_key (a : Action) : string :=
  match a with
  | Cooperate => "cooperate"%string
  | Defect => "defect"%string
  end.

(** [l[i]] for a Python list: a negative index counts from the end, an index
    outside [-len(l) .. len(l)-1] raises [IndexError] (here [None]). *)
Definition py_getitem {A} (l : list A) (i : Z) : option A :=
  if decide (0 ≤ i)%Z then l !! Z.to_nat i
  else if decide (- Z.of_nat (length l) ≤ i)%Z
       then l !! Z.to_nat (Z.of_nat (length l) + i)
       else None.

(** ** agent.py: the agent classes *)

Inductive AgentClass : Type :=
  | TitForTatAgent
  | RandomAgent
  | TitForTwoTatsAgent
  | GrudgerAgent
  | CooperatorAgent
  | DefectorAgent.

#[global] Instance AgentClass_eq_dec : EqDecision AgentClass.
Proof. solve_decision. Defined.

Record Agent : Type := mkAgent {
  class_of : AgentClass;
  name : string;
  history : gmap string (list Action);
  oponent_history : gmap string (list Action);
  score : Z;
  label : string;
  description : string
}.

Definition class_label (c : AgentClass) : string :=
  match c with
  | TitForTatAgent => "TFT"%string
  | RandomAgent => "R"%string
  | TitForTwoTatsAgent => "TF2T"%string
  | GrudgerAgent => "G"%string
  | CooperatorAgent => "C"%string
  | DefectorAgent => "D"%string
  end.

Definition class_description (c : AgentClass) : string :=
  match c with
  | TitForTatAgent =>
      "Cooperates on the first move, then mimics the opponent's previous move."%string
  | RandomAgent => "Randomly chooses to cooperate or defect."%string
  | TitForTwoTatsAgent =>
      "Cooperates until the opponent defects twice in a row, then defects."%string
  | GrudgerAgent =>
      "Cooperates until the opponent defects, then defects for the rest of the game."%string
  | CooperatorAgent => "Always cooperates."%string
  | DefectorAgent => "Always defects."%string
  end.

(** [cls(name)]: [Agent.__init__] followed by the subclass's two
    assignments. *)
Definition new_agent (c : AgentClass) (nm : string) : Agent :=
  {| class_of := c; name := nm; history := ∅; oponent_history := ∅;
     score := 0%Z; label := class_label c; description := class_description c |}.

Definition set_history (h : gmap string (list Action)) (self : Agent) : Agent :=
  {| class_of := class_of self; name := name self; history := h;
     oponent_history := oponent_history self; score := score self;
     label := label self; description := description self |}.

Definition set_oponent_history (h : gmap string (list Action)) (self : Agent)
  : Agent :=
  {| class_of := class_of self; name := name self; history := history self;
     oponent_history := h; score := score self;
     label := label self; description := description self |}.

Definition set_score (z : Z) (self : Agent) : Agent :=
  {| class_of := class_of self; name := name self; history := history self;
     oponent_history := oponent_history self; score := z;
     label := label self; description := description self |}.

(** [d[key]] on a dictionary, raising [KeyError]. *)
Definition dict_get {S V} (d : gmap string V) (key : string) : ST S V :=
  match d !! key with
  | Some v => mret v
  | None => raise (KeyError key)
  end.

(** [l[i]] on a list, raising [IndexError]. *)
Definition list_get {S A} (l : list A) (i : Z) : ST S A :=
  match py_getitem l i with
  | Some x => mret x
  | None => raise IndexError
  end.

(** [Agent.update_history]. *)
Definition update_history (opponent_name : string) (action oponent_action : Action)
  : ST Agent () :=
  h ← gets history;
  (if decide (h !! opponent_name = None)
   then modify (λ self, set_history (<[opponent_name := []]> (history self)) self) ;;
        modify (λ self, set_oponent_history
                          (<[opponent_name := []]> (oponent_history self)) self)
   else mret ()) ;;
  h ← gets history;
  l ← dict_get h opponent_name;
  modify (set_history (<[opponent_name := l ++ [action]]> h)) ;;
  oh ← gets oponent_history;
  ol ← dict_get oh opponent_name;
  modify (set_oponent_history (<[opponent_name := ol ++ [oponent_action]]> oh)).

(** [Agent.update_score]. *)
Definition update_score (payoff : Z) : ST Agent () :=
  modify (λ self, set_score (score self + payoff)%Z self).

(** [x in d] for a dictionary. *)
Definition dict_mem {V} (key : string) (d : gmap string V) : bool :=
  bool_decide (is_Some (d !! key)).

(** [x in l] for a list of actions. *)
Definition list_mem (x : Action) (l : list Action) : bool :=
  bool_decide (x ∈ l).

(** [TitForTatAgent.choose_action]. *)
Definition TitForTatAgent_choose_action (opponent_name : string)
  : ST Agent Action :=
  h ← gets history;
  if dict_mem opponent_name h then
    oh ← gets oponent_history;
    l ← dict_get oh opponent_name;
    list_get l (-1)
  else mret Cooperate.

(** [TitForTwoTatsAgent.choose_action]; the conjunction is evaluated left
    to right and stops at the first false operand. *)
Definition TitForTwoTatsAgent_choose_action (opponent_name : string)
  : ST Agent Action :=
  h ← gets history;
  if dict_mem opponent_name h then
    l ← dict_get h opponent_name;
    if decide (2 ≤ length l) then
      oh ← gets oponent_history;
      ol ← dict_get oh opponent_name;
      x ← list_get ol (-1);
      if decide (x = Defect) then
        oh' ← gets oponent_history;
        ol' ← dict_get oh' opponent_name;
        y ← list_get ol' (-2);
        if decide (y = Defect) then mret Defect else mret Cooperate
      else mret Cooperate
    else mret Cooperate
  else mret Cooperate.

(** [GrudgerAgent.choose_action]. *)
Definition GrudgerAgent_choose_action (opponent_name : string)
  : ST Agent Action :=
  h ← gets history;
  if dict_mem opponent_name h then
    oh ← gets oponent_history;
    ol ← dict_get oh opponent_name;
    if list_mem Defect ol then mret Defect else mret Cooperate
  else mret Cooperate.

(** [CooperatorAgent.choose_action] and [DefectorAgent.choose_action]. *)
Definition CooperatorAgent_choose_action (opponent_name : string)
  : ST Agent Action := mret Cooperate.

Definition DefectorAgent_choose_action (opponent_name : string)
  : ST Agent Action := mret Defect.

(** A class is deterministic when its [choose_action] does not call
    [np.random]. *)
Definition deterministic (c : AgentClass) : Prop := c ≠ RandomAgent.

(** The [choose_action] of the five deterministic classes, by dynamic
    dispatch on the class of [self].  The branch for [RandomAgent] is never
    run: [choose_action] below sends that class to the random generator. *)
Definition choose_action_of (c : AgentClass) (opponent_name : string)
  : ST Agent Action :=
  match c with
  | TitForTatAgent => TitForTatAgent_choose_action opponent_name
  | TitForTwoTatsAgent => TitForTwoTatsAgent_choose_action opponent_name
  | GrudgerAgent => GrudgerAgent_choose_action opponent_name
  | CooperatorAgent => CooperatorAgent_choose_action opponent_name
  | DefectorAgent => DefectorAgent_choose_action opponent_name
  | RandomAgent => mret Cooperate
  end.

(** ** agent.py: the factory *)

Record AgentFactory : Type := mkFactory {
  agent_classes : gmap string AgentClass
}.

(** [AgentFactory()]. *)
Definition new_factory : AgentFactory := {| agent_classes := ∅ |}.

(** [@factory.register(name)] applied to a class. *)
Definition register (nm : string) (c : AgentClass) (f : AgentFactory)
  : AgentFactory :=
  {| agent_classes := <[nm := c]> (agent_classes f) |}.

Definition not_registered_msg (nm : string) : string :=
  ("Agent class '" +:+ nm +:+ "' not registered.")%string.

(** [AgentFactory.create(name, arg)]. *)
Definition create (f : AgentFactory) (nm : string) (arg : string)
  : outcome Agent :=
  match agent_classes f !! nm with
  | None => Raise (ValueError (not_registered_msg nm))
  | Some c => Return (new_agent c arg)
  end.

(** The module-level [factory] after the six decorated class definitions
    of agent.py have been executed. *)
Definition factory : AgentFactory :=
  register "Defector" DefectorAgent
    (register "Cooperator" CooperatorAgent
      (register "Grudger" GrudgerAgent
        (register "TitForTwoTats" TitForTwoTatsAgent
          (register "Random" RandomAgent
            (register "TitForTat" TitForTatAgent new_factory))))).

(** ** run.py: configuration and construction *)

(** The configuration dictionary read from the JSON file.  A key of the top
    level that is absent is [None]; an agent entry carries its ['type'] and
    ['name']; the payoff matrix is a dictionary of dictionaries of pairs. *)
Record AgentConfig : Type := mkAgentConfig {
  cfg_type : string;
  cfg_name : string
}.

Record Config : Type := mkConfig {
  cfg_agents : option (list AgentConfig);
  cfg_payoff_matrix : option (gmap string (gmap string (Z * Z)));
  cfg_rounds : option nat
}.

Record PrisonersDilemma : Type := mkGame {
  agents : list Agent;
  payoff_matrix : gmap string (gmap string (Z * Z));
  rounds : nat
}.

(** The list comprehension of [__init__]: agents are created in order and
    the first exception ends the construction. *)
Fixpoint create_all (f : AgentFactory) (l : list AgentConfig)
  : outcome (list Agent) :=
  match l with
  | [] => Return []
  | c :: l' =>
      match create f (cfg_type c) (cfg_name c) with
      | Raise e => Raise e
      | Return a =>
          match create_all f l' with
          | Raise e => Raise e
          | Return l'' => Return (a :: l'')
          end
      end
  end.

(** [PrisonersDilemma.__init__(config, factory)]. *)
Definition PrisonersDilemma_init (config : Config) (f : AgentFactory)
  : outcome PrisonersDilemma :=
  match cfg_agents config with
  | None => Raise (KeyError "agents")
  | Some l =>
      match create_all f l with
      | Raise e => Raise e
      | Return ags =>
          match cfg_payoff_matrix config with
          | None => Raise (KeyError "payoff_matrix")
          | Some pm =>
              match cfg_rounds config with
              | None => Raise (KeyError "rounds")
              | Some r =>
                  Return {| agents := ags; payoff_matrix := pm; rounds := r |}
              end
          end
      end
  end.

(** ** run.py: playing *)

(** The state in which the methods of the game object run: the game object
    itself, whose agents are mutated in place; the global random generator
    of numpy, given by the sequence of the results that
    [np.random.choice(['cooperate', 'defect'])] will return and the number
    of them already consumed; and a ghost log of the [play_round] calls made
    so far, which no method reads. *)
Record World : Type := mkWorld {
  game : PrisonersDilemma;
  np_random : nat → Action;
  draws : nat;
  calls : list (nat * nat)
}.

Definition set_agents (l : list Agent) (w : World) : World :=
  {| game := {| agents := l; payoff_matrix := payoff_matrix (game w);
                rounds := rounds (game w) |};
     np_random := np_random w; draws := draws w; calls := calls w |}.

Definition set_draws (n : nat) (w : World) : World :=
  {| game := game w; np_random := np_random w; draws := n; calls := calls w |}.

Definition log_call (c : nat * nat) (w : World) : World :=
  {| game := game w; np_random := np_random w; draws := draws w;
     calls := calls w ++ [c] |}.

(** A method call on the agent object at position [i] of [self.agents]. *)
Definition on_agent {A} (i : nat) (m : ST Agent A) : ST World A :=
  λ w, match agents (game w) !! i with
       | None => (w, Raise (DanglingReference i))
       | Some a =>
           let '(a', r) := m a in
           (set_agents (<[i := a']> (agents (game w))) w, r)
       end.

(** [RandomAgent.choose_action]. *)
Definition RandomAgent_choose_action : ST World Action :=
  λ w, (set_draws (S (draws w)) w, Return (np_random w (draws w))).

(** [agent.choose_action(opponent_name)] for the agent at position [i]. *)
Definition choose_action (i : nat) (opponent_name : string) : ST World Action :=
  c ← on_agent i (gets class_of);
  match c with
  | RandomAgent => RandomAgent_choose_action
  | _ => on_agent i (choose_action_of c opponent_name)
  end.

(** [PrisonersDilemma.get_payoffs]. *)
Definition get_payoffs (action1 action2 : Action) : ST World (Z * Z) :=
  pm ← gets (λ w, payoff_matrix (game w));
  row ← dict_get pm (action_key action1);
  dict_get row (action_key action2).

(** [PrisonersDilemma.play_round(agent1, agent2)], the agents being given by
    their positions. *)
Definition play_round (i j : nat) : ST World () :=
  modify (log_call (i, j)) ;;
  name2 ← on_agent j (gets name);
  action1 ← choose_action i name2;
  name1 ← on_agent i (gets name);
  action2 ← choose_action j name1;
  name2 ← on_agent j (gets name);
  on_agent i (update_history name2 action1 action2) ;;
  name1 ← on_agent i (gets name);
  on_agent j (update_history name1 action2 action1) ;;
  '(payoff1, payoff2) ← get_payoffs action1 action2;
  on_agent i (update_score payoff1) ;;
  on_agent j (update_score payoff2).

(** [PrisonersDilemma.run]: [enumerate(self.agents)] gives the positions
    [0 .. n-1] and [self.agents[i+1:]] the positions [i+1 .. n-1]. *)
Definition run : ST World () :=
  r ← gets (λ w, rounds (game w));
  for_each (seq 0 r) (λ _,
    n ← gets (λ w, length (agents (game w)));
    for_each (seq 0 n) (λ i,
      for_each (seq (i + 1) (n - (i + 1))) (λ j,
        play_round i j))).

(** The world in which a freshly constructed game starts. *)
Definition start (g : PrisonersDilemma) (rnd : nat → Action) : World :=
  {| game := g; np_random := rnd; draws := 0; calls := [] |}.

(** ** Specification-level notions *)

(** The histories of an agent are well formed when both dictionaries have
    the same keys and, under each key, two non-empty lists of the same
    length. *)
Definition agent_wf (a : Agent) : Prop :=
  ∀ o, match history a !! o, oponent_history a !! o with
       | Some h, Some oh => length h = length oh ∧ 0 < length h
       | None, None => True
       | _, _ => False
       end.

(** What one round against [o] adds to the histories of an agent. *)
Definition record_round (o : string) (x y : Action) (a : Agent) : Agent :=
  set_oponent_history
    (<[o := default [] (oponent_history a !! o) ++ [y]]> (oponent_history a))
    (set_history (<[o := default [] (history a !! o) ++ [x]]> (history a)) a).

(** The action a deterministic class returns, when it returns one. *)
Definition chosen (c : AgentClass) (o : string) (a : Agent) : Action :=
  match (choose_action_of c o a).2 with
  | Return x => x
  | Raise _ => Cooperate
  end.

(** ** One round, as a function of the two agents *)

(** The action the agent [a] picks against [o] in the world [w], and the
    world after the pick (only a random agent advances the generator). *)
Definition pick (w : World) (a : Agent) (o : string) : Action :=
  match class_of a with
  | RandomAgent => np_random w (draws w)
  | c => chosen c o a
  end.

Definition after_pick (w : World) (a : Agent) : World :=
  match class_of a with
  | RandomAgent => set_draws (S (draws w)) w
  | _ => w
  end.

(** The lookup of [get_payoffs] as a function of the matrix. *)
Definition payoff_lookup (pm : gmap string (gmap string (Z * Z)))
    (x y : Action) : outcome (Z * Z) :=
  match pm !! action_key x with
  | None => Raise (KeyError (action_key x))
  | Some row =>
      match row !! action_key y with
      | None => Raise (KeyError (action_key y))
      | Some p => Return p
      end
  end.

(** The world after a round between the agents at [i] and [j] in which they
    played [x1] and [x2], up to the scores and the state of the generator. *)
Definition round_world (i j : nat) (a1 a2 : Agent) (x1 x2 : Action)
    (z1 z2 : Z) (d : nat) (w : World) : World :=
  {| game :=
       {| agents :=
            <[j := set_score z2 (record_round (name a1) x2 x1 a2)]>
              (<[i := set_score z1 (record_round (name a2) x1 x2 a1)]>
                 (agents (game w)));
          payoff_matrix := payoff_matrix (game w);
          rounds := rounds (game w) |};
     np_random := np_random w; draws := d; calls := calls w ++ [(i, j)] |}.

(** The actions of a round between [a1] and [a2], in the order in which
    [play_round] asks for them, and the state of the generator after it. *)
Definition first_action (a1 a2 : Agent) (w : World) : Action :=
  pick w a1 (name a2).

Definition second_action (a1 a2 : Agent) (w : World) : Action :=
  pick (after_pick w a1) a2 (name a1).

Definition draws_after (a1 a2 : Agent) (w : World) : nat :=
  draws (after_pick (after_pick w a1) a2).

(** The result of [play_round i j], where [a1] and [a2] are the agents at
    the distinct positions [i] and [j] before the call: when the payoff
    lookup raises, the histories have been updated and the scores have
    not. *)
Definition round_outcome (i j : nat) (a1 a2 : Agent) (w : World)
  : World * outcome () :=
  let x1 := first_action a1 a2 w in
  let x2 := second_action a1 a2 w in
  match payoff_lookup (payoff_matrix (game w)) x1 x2 with
  | Raise e =>
      (round_world i j a1 a2 x1 x2 (score a1) (score a2)
         (draws_after a1 a2 w) w, Raise e)
  | Return p =>
      (round_world i j a1 a2 x1 x2 (score a1 + p.1) (score a2 + p.2)
         (draws_after a1 a2 w) w, Return ())
  end.

(** ** The schedule of one round *)

(** The pairs of positions that the two inner loops of [run] go through, in
    order, for [n] agents. *)
Definition pairs (n : nat) : list (nat * nat) :=
  flat_map (λ i, map (pair i) (seq (i + 1) (n - (i + 1)))) (seq 0 n).

Definition play (p : nat * nat) : ST World () := play_round p.1 p.2.

(** ** Invariants of the world *)

Definition world_wf (w : World) : Prop :=
  ∀ i a, agents (game w) !! i = Some a → agent_wf a.

Definition unique_names (w : World) : Prop :=
  NoDup (name <$> agents (game w)).

(** The own actions an agent recorded against another agent are the
    opponent actions the other recorded against it. *)
Definition histories_agree (w : World) : Prop :=
  ∀ i j a b, i ≠ j →
    agents (game w) !! i = Some a → agents (game w) !! j = Some b →
    history a !! name b = oponent_history b !! name a.

Definition world_inv (w : World) : Prop :=
  unique_names w ∧ world_wf w ∧ histories_agree w.

(** What a run never changes. *)
Definition same_setup (w0 w : World) : Prop :=
  name <$> agents (game w) = name <$> agents (game w0) ∧
  class_of <$> agents (game w) = class_of <$> agents (game w0) ∧
  payoff_matrix (game w) = payoff_matrix (game w0) ∧
  rounds (game w) = rounds (game w0) ∧
  np_random w = np_random w0.

(** ** The run as a sequence of rounds *)

(** One pass of the outer loop of [run]. *)
Definition round : ST World () :=
  λ w, for_each (pairs (length (agents (game w)))) play w.

(** The [play_round] calls of a whole run, in order. *)
Definition schedule (r n : nat) : list (nat * nat) :=
  concat (replicate r (pairs n)).

(** What every [play_round] call of a run keeps, whether it returns or
    raises. *)
Definition stable (w0 w : World) : Prop :=
  same_setup w0 w ∧ world_wf w ∧
  (unique_names w0 → histories_agree w0 → histories_agree w).

(** [played l w w']: the [play_round] calls [l], made in order from the
    world [w], all returned and left the world [w']. *)
Inductive played : list (nat * nat) → World → World → Prop :=
  | played_nil w : played [] w w
  | played_snoc l w w' i j a1 a2 p :
      played l w w' →
      i ≠ j →
      agents (game w') !! i = Some a1 →
      agents (game w') !! j = Some a2 →
      payoff_lookup (payoff_matrix (game w'))
        (first_action a1 a2 w') (second_action a1 a2 w') = Return p →
      played (l ++ [(i, j)]) w
        (round_world i j a1 a2 (first_action a1 a2 w') (second_action a1 a2 w')
           (score a1 + p.1) (score a2 + p.2) (draws_after a1 a2 w') w').

(** The payoff matrix has the four entries. *)
Definition matrix_complete (pm : gmap string (gmap string (Z * Z))) : Prop :=
  ∀ x y, ∃ p, payoff_lookup pm x y = Return p.

(** ** Freshly constructed games *)

Definition fresh (a : Agent) : Prop :=
  history a = ∅ ∧ oponent_history a = ∅ ∧ score a = 0%Z.

(** ** Sequences of calls on one agent *)

(** A sequence of [update_history] calls on one agent. *)
Definition update_all (l : list (string * Action * Action)) : ST Agent () :=
  for_each l (λ c, update_history c.1.1 c.1.2 c.2).

(** An agent that has cooperated twice against ["b"], who defected twice. *)
Definition tf2t_example : Agent :=
  record_round "b" Cooperate Defect
    (record_round "b" Cooperate Defect (new_agent TitForTwoTatsAgent "a")).

(** A configuration that names a class which agent.py does not register. *)
Definition cfg_unregistered : Config :=
  {| cfg_agents := Some [ mkAgentConfig "Cooperator" "c";
                          mkAgentConfig "Pavlov" "p" ];
     cfg_payoff_matrix := None;
     cfg_rounds := Some 3 |}.

(** ** The standard scenario *)

Definition std_matrix : gmap string (gmap string (Z * Z)) :=
  {[ "cooperate" := {[ "cooperate" := (3, 3); "defect" := (0, 5) ]};
     "defect" := {[ "cooperate" := (5, 0); "defect" := (1, 1) ]} ]}%Z.

Definition tft_vs_defector : Config :=
  {| cfg_agents := Some [ mkAgentConfig "TitForTat" "tft";
                          mkAgentConfig "Defector" "d" ];
     cfg_payoff_matrix := Some std_matrix;
     cfg_rounds := Some 3 |}.

Definition tft_vs_defector_game : PrisonersDilemma :=
  {| agents := [ new_agent TitForTatAgent "tft"; new_agent DefectorAgent "d" ];
     payoff_matrix := std_matrix; rounds := 3 |}.

(** The actions of the two agents of a two-agent world, round by round,
    as each recorded its own, and their scores. *)
Definition two_agent_summary (w : World)
  : option (list Action * Z) * option (list Action * Z) :=
  match agents (game w) with
  | [a; b] =>
      (h ← history a !! name b; Some (h, score a),
       h ← history b !! name a; Some (h, score b))
  | _ => (None, None)
  end.

(** ** Consistency of the histories *)

(** The worlds reached from [w0] by [play_round] calls on two distinct
    agents of the game and by [run] calls, whether they return or raise. *)
Inductive reachable (w0 : World) : World → Prop :=
  | reachable_start : reachable w0 w0
  | reachable_play_round w i j :
      reachable w0 w → i ≠ j →
      i < length (agents (game w)) → j < length (agents (game w)) →
      reachable w0 (play_round i j w).1
  | reachable_run w : reachable w0 w → reachable w0 (run w).1.

(** The four lists that two agents hold about each other. *)
Definition histories_consistent (w : World) : Prop :=
  ∀ i j a b h, i ≠ j →
    agents (game w) !! i = Some a → agents (game w) !! j = Some b →
    history a !! name b = Some h →
    ∃ oh h' oh',
      oponent_history a !! name b = Some oh ∧
      history b !! name a = Some h' ∧
      oponent_history b !! name a = Some oh' ∧
      length h = length oh ∧ length oh = length h' ∧ length h' = length oh' ∧
      (∀ k, h !! k = oh' !! k) ∧ (∀ k, oh !! k = h' !! k).

(** ** Simultaneity *)

(** [play_round] with its first two statements exchanged: [agent2] chooses
    before [agent1]. *)
Definition play_round_swapped (i j : nat) : ST World () :=
  modify (log_call (i, j)) ;;
  name1 ← on_agent i (gets name);
  action2 ← choose_action j name1;
  name2 ← on_agent j (gets name);
  action1 ← choose_action i name2;
  name2 ← on_agent j (gets name);
  on_agent i (update_history name2 action1 action2) ;;
  name1 ← on_agent i (gets name);
  on_agent j (update_history name1 action2 action1) ;;
  '(payoff1, payoff2) ← get_payoffs action1 action2;
  on_agent i (update_score payoff1) ;;
  on_agent j (update_score payoff2).

(** ** An incomplete payoff matrix *)

Definition matrix_without_cd : gmap string (gmap string (Z * Z)) :=
  {[ "cooperate" := {[ "cooperate" := (3, 3) ]};
     "defect" := {[ "cooperate" := (5, 0); "defect" := (1, 1) ]} ]}%Z.

Definition cooperator_vs_defector : Config :=
  {| cfg_agents := Some [ mkAgentConfig "Cooperator" "c";
                          mkAgentConfig "Defector" "d" ];
     cfg_payoff_matrix := Some matrix_without_cd;
     cfg_rounds := Some 1 |}.

Definition cooperator_vs_defector_game : PrisonersDilemma :=
  {| agents := [ new_agent CooperatorAgent "c"; new_agent DefectorAgent "d" ];
     payoff_matrix := matrix_without_cd; rounds := 1 |}.

(** ** Scores recomputed from the histories *)

(** The payoff of the player of [x] against [y]: the first component of the
    entry of the matrix for [(x, y)]. *)
Definition own_payoff (pm : gmap string (gmap string (Z * Z)))
    (x y : Action) : Z :=
  match payoff_lookup pm x y with
  | Return p => p.1
  | Raise _ => 0%Z
  end.

Definition payoff_sum (pm : gmap string (gmap string (Z * Z)))
    (l : list (Action * Action)) : Z :=
  foldr (λ xy acc, (own_payoff pm xy.1 xy.2 + acc)%Z) 0%Z l.

(** The sum, over the opponents [o] in [history] and the rounds [k] recorded
    against [o], of the payoff for
    [(history[o][k], oponent_history[o][k])]. *)
Definition recomputed_score (pm : gmap string (gmap string (Z * Z)))
    (a : Agent) : Z :=
  map_fold
    (λ o h acc,
       (payoff_sum pm (zip h (default [] (oponent_history a !! o))) + acc)%Z)
    0%Z (history a).

(** Every recorded pair of actions has an entry in the matrix. *)
Definition payoffs_defined (pm : gmap string (gmap string (Z * Z)))
    (a : Agent) : Prop :=
  ∀ o h oh k x y,
    history a !! o = Some h → oponent_history a !! o = Some oh →
    h !! k = Some x → oh !! k = Some y →
    ∃ p, payoff_lookup pm x y = Return p.

(** Exchanging the two players exchanges the two payoffs. *)
Definition matrix_symmetric (pm : gmap string (gmap string (Z * Z))) : Prop :=
  ∀ x y p, payoff_lookup pm x y = Return p →
           payoff_lookup pm y x = Return (p.2, p.1).

Definition score_ok (pm : gmap string (gmap string (Z * Z))) (a : Agent)
  : Prop :=
  score a = recomputed_score pm a ∧ payoffs_defined pm a.

(** A matrix that is not symmetric: the entries for (cooperate, defect) and
    (defect, cooperate) are not each other's mirror. *)
Definition asymmetric_matrix : gmap string (gmap string (Z * Z)) :=
  {[ "cooperate" := {[ "cooperate" := (3, 3); "defect" := (0, 5) ]};
     "defect" := {[ "cooperate" := (9, 0); "defect" := (1, 1) ]} ]}%Z.

(** ** Running twice *)

(** The list recorded under [o], empty when [o] is not a key. *)
Definition recorded (m : gmap string (list Action)) (o : string) : list Action :=
  default [] (m !! o).

(** Whether the call [play_round p.1 p.2] is a round of the agent at
    position [i] against an agent named [o], the names of the agents being
    [nms]; and the number of such rounds among the calls [l]. *)
Definition met (nms : list string) (i : nat) (o : string) (p : nat * nat) : nat :=
  if decide ((p.1 = i ∧ nms !! p.2 = Some o) ∨ (p.2 = i ∧ nms !! p.1 = Some o))
  then 1 else 0.

Definition rounds_with (nms : list string) (i : nat) (o : string)
    (l : list (nat * nat)) : nat :=
  foldr (λ p n, met nms i o p + n) 0 l.

(** The classes whose [choose_action] ignores the histories, and the action
    they always return. *)
Definition history_free (c : AgentClass) : Prop :=
  c = CooperatorAgent ∨ c = DefectorAgent.

Definition fixed_action (c : AgentClass) : Action :=
  match c with
  | DefectorAgent => Defect
  | _ => Cooperate
  end.

(** What the call [play_round p.1 p.2] pays to the agent at position [i]
    when the agents, of classes [cls], are all history-free; and the sum
    over the calls [l]. *)
Definition gain (pm : gmap string (gmap string (Z * Z)))
    (cls : list AgentClass) (i : nat) (p : nat * nat) : Z :=
  match cls !! p.1, cls !! p.2 with
  | Some c1, Some c2 =>
      match payoff_lookup pm (fixed_action c1) (fixed_action c2) with
      | Return q =>
          if decide (i = p.2) then q.2 else if decide (i = p.1) then q.1 else 0%Z
      | Raise _ => 0%Z
      end
  | _, _ => 0%Z
  end.

Definition total_gain (pm : gmap string (gmap string (Z * Z)))
    (cls : list AgentClass) (i : nat) (l : list (nat * nat)) : Z :=
  foldr (λ p z, (gain pm cls i p + z)%Z) 0%Z l.

(** ** More of agent.py: printing, and the strategies as functions *)

(** [Agent.__str__]. *)
Definition Agent_str (self : Agent) : string :=
  name self +:+ " (" +:+ label self +:+ "): " +:+ description self.

(** What the class [c] plays against an opponent who has played [prev] so
    far, oldest action first (for [RandomAgent], which does not look at
    [prev], the value is not used). *)
Definition strategy (c : AgentClass) (prev : list Action) : Action :=
  match c with
  | TitForTatAgent => default Cooperate (last prev)
  | TitForTwoTatsAgent =>
      match rev prev with
      | Defect :: Defect :: _ => Defect
      | _ => Cooperate
      end
  | GrudgerAgent => if bool_decide (Defect ∈ prev) then Defect else Cooperate
  | DefectorAgent => Defect
  | CooperatorAgent => Cooperate
  | RandomAgent => Cooperate
  end.

(** The six names under which agent.py registers its classes. *)
Definition registered_kinds : list (string * AgentClass) :=
  [ ("TitForTat", TitForTatAgent); ("Random", RandomAgent);
    ("TitForTwoTats", TitForTwoTatsAgent); ("Grudger", GrudgerAgent);
    ("Cooperator", CooperatorAgent); ("Defector", DefectorAgent) ].

(** The agents that [__init__] builds for the entries [l] of a
    configuration, when every type is registered in [f]. *)
Definition configured_agents (f : AgentFactory) (l : list AgentConfig)
  : list (option Agent) :=
  (λ c, (λ cls, new_agent cls (cfg_name c)) <$> agent_classes f !! cfg_type c)
    <$> l.

(** A Grudger against whom ["b"] has defected once. *)
Definition grudger_example : Agent :=
  record_round "b" Cooperate Defect (new_agent GrudgerAgent "a").

(** ** More of run.py: what the charts show *)

(** [visualize_scores]: the heights and the labels of the bars. *)
Definition scores (g : PrisonersDilemma) : list Z := score <$> agents g.

Definition names_labels (g : PrisonersDilemma) : list string :=
  (λ a, name a +:+ " (" +:+ label a +:+ ")") <$> agents g.

(** ** What a run keeps of every agent *)

(** [a] is [a0] after some rounds: the same class, name, label and
    description, and histories that continue those of [a0]. *)
Definition agent_extends (a0 a : Agent) : Prop :=
  class_of a = class_of a0 ∧ name a = name a0 ∧
  label a = label a0 ∧ description a = description a0 ∧
  ∀ o, recorded (history a0) o `prefix_of` recorded (history a) o ∧
       recorded (oponent_history a0) o
         `prefix_of` recorded (oponent_history a) o.

Definition world_extends (w0 w : World) : Prop :=
  payoff_matrix (game w) = payoff_matrix (game w0) ∧
  rounds (game w) = rounds (game w0) ∧
  length (agents (game w)) = length (agents (game w0)) ∧
  ∀ i a0 a, agents (game w0) !! i = Some a0 → agents (game w) !! i = Some a →
            agent_extends a0 a.

(** Every action that [a] recorded as its own is the one its class plays
    against the actions the opponent had played before that round. *)
Definition follows_strategy (a : Agent) : Prop :=
  ∀ o k x, recorded (history a) o !! k = Some x →
           x = strategy (class_of a) (take k (recorded (oponent_history a) o)).

(** * Proofs *)

Ltac st_unfold :=
  unfold dict_get, list_get in *;
  unfold mbind, mret, ST_bind, ST_ret, st_bind, st_ret, gets, modify, raise
    in *.

(** ** Python list indexing *)

Lemma py_getitem_last {A} (l : list A) (x : A) :
  py_getitem (l ++ [x]) (-1) = Some x.
Proof.
  unfold py_getitem. rewrite decide_False by lia.
  rewrite decide_True by (rewrite length_app; simpl; lia).
  rewrite length_app. simpl.
  replace (Z.to_nat (Z.of_nat (length l + 1) + -1)) with (length l + 0) by lia.
  rewrite lookup_app_r by lia.
  by replace (length l + 0 - length l) with 0 by lia.
Qed.

Lemma py_getitem_last2 {A} (l : list A) (x y : A) :
  py_getitem (l ++ [x; y]) (-2) = Some x.
Proof.
  unfold py_getitem. rewrite decide_False by lia.
  rewrite decide_True by (rewrite length_app; simpl; lia).
  rewrite length_app. simpl.
  replace (Z.to_nat (Z.of_nat (length l + 2) + -2)) with (length l + 0) by lia.
  rewrite lookup_app_r by lia.
  by replace (length l + 0 - length l) with 0 by lia.
Qed.

Lemma py_getitem_last_of2 {A} (l : list A) (x y : A) :
  py_getitem (l ++ [x; y]) (-1) = Some y.
Proof.
  replace (l ++ [x; y]) with ((l ++ [x]) ++ [y]) by (by rewrite <- app_assoc).
  apply py_getitem_last.
Qed.

Lemma py_getitem_neg_is_Some {A} (l : list A) (k : nat) :
  0 < k → k ≤ length l → is_Some (py_getitem l (- Z.of_nat k)).
Proof.
  intros Hk Hl. unfold py_getitem.
  rewrite decide_False by lia. rewrite decide_True by lia.
  apply lookup_lt_is_Some. lia.
Qed.

Lemma snoc_inv {A} (l : list A) : 0 < length l → ∃ l' x, l = l' ++ [x].
Proof.
  destruct l as [|y l] using rev_ind; simpl; [lia|]. eauto.
Qed.

Lemma snoc2_inv {A} (l : list A) : 2 ≤ length l → ∃ l' x y, l = l' ++ [x; y].
Proof.
  intros Hl. destruct (snoc_inv l) as (l1 & y & ->); [lia|].
  rewrite length_app in Hl; simpl in Hl.
  destruct (snoc_inv l1) as (l2 & x & ->); [lia|].
  exists l2, x, y. by rewrite <- app_assoc.
Qed.

(** ** The methods of an agent *)

Section agent_lemmas.
Implicit Types (a : Agent) (o : string) (x y : Action) (c : AgentClass).

Lemma new_agent_wf c nm : agent_wf (new_agent c nm).
Proof. intros o. simpl. by rewrite !lookup_empty. Qed.

Lemma update_history_wf a o x y :
  agent_wf a → update_history o x y a = (record_round o x y a, Return ()).
Proof.
  intros Hwf. specialize (Hwf o). unfold update_history, record_round.
  st_unfold. simpl.
  destruct (history a !! o) as [h|] eqn:Hh;
    destruct (oponent_history a !! o) as [oh|] eqn:Hoh; try done.
  - rewrite decide_False by done. simpl. by rewrite Hh, Hoh.
  - rewrite decide_True by done. simpl.
    repeat (rewrite lookup_insert_eq; simpl). by rewrite !insert_insert_eq.
Qed.

Lemma record_round_wf a o x y : agent_wf a → agent_wf (record_round o x y a).
Proof.
  intros Hwf o'. unfold record_round. simpl.
  destruct (decide (o = o')) as [<-|Hne].
  - rewrite !lookup_insert_eq. specialize (Hwf o). rewrite !length_app. simpl.
    destruct (history a !! o), (oponent_history a !! o); simpl; try done; lia.
  - rewrite !lookup_insert_ne by done. apply Hwf.
Qed.

Lemma set_score_wf a z : agent_wf a → agent_wf (set_score z a).
Proof. done. Qed.

(** A deterministic [choose_action] never changes [self]. *)
Lemma choose_action_of_pure c o a :
  (choose_action_of c o a).1 = a.
Proof.
  destruct c; simpl; try done.
  - unfold TitForTatAgent_choose_action. st_unfold.
    repeat (case_match; simpl in *; simplify_eq); done.
  - unfold TitForTwoTatsAgent_choose_action. st_unfold.
    repeat (case_match; simpl in *; simplify_eq); done.
  - unfold GrudgerAgent_choose_action. st_unfold.
    repeat (case_match; simpl in *; simplify_eq); done.
Qed.

(** On well-formed histories it returns an action. *)
Lemma choose_action_of_wf c o a :
  agent_wf a → choose_action_of c o a = (a, Return (chosen c o a)).
Proof.
  intros Hwf. specialize (Hwf o). unfold chosen.
  destruct c; simpl; try done.
  - unfold TitForTatAgent_choose_action, dict_mem. st_unfold.
    destruct (history a !! o) as [h|] eqn:Hh;
      destruct (oponent_history a !! o) as [oh|] eqn:Hoh; try done; simpl.
    rewrite Hoh.
    destruct (py_getitem_neg_is_Some oh 1) as [z Hz]; [lia..|].
    change (- Z.of_nat 1)%Z with (-1)%Z in Hz. by rewrite Hz.
  - unfold TitForTwoTatsAgent_choose_action, dict_mem. st_unfold.
    destruct (history a !! o) as [h|] eqn:Hh;
      destruct (oponent_history a !! o) as [oh|] eqn:Hoh; try done; simpl.
    destruct (decide (2 ≤ length h)); [|done]. rewrite Hoh.
    destruct (py_getitem_neg_is_Some oh 1) as [z Hz]; [lia..|].
    destruct (py_getitem_neg_is_Some oh 2) as [z' Hz']; [lia..|].
    change (- Z.of_nat 1)%Z with (-1)%Z in Hz.
    change (- Z.of_nat 2)%Z with (-2)%Z in Hz'. rewrite Hz.
    destruct (decide (z = Defect)); [|done]. simpl. rewrite Hoh, Hz'.
    by destruct (decide (z' = Defect)).
  - unfold GrudgerAgent_choose_action, dict_mem. st_unfold.
    destruct (history a !! o) as [h|] eqn:Hh;
      destruct (oponent_history a !! o) as [oh|] eqn:Hoh; try done; simpl.
    rewrite Hoh. by destruct (list_mem Defect oh).
Qed.
End agent_lemmas.

(** ** The methods of the game, run step by step *)

Section world_lemmas.
Implicit Types (w : World) (a : Agent) (i j : nat).

Lemma bind_run {S A B} (m : ST S A) (k : A → ST S B) (s : S) :
  (m ≫= k) s = match m s with
               | (s', Return x) => k x s'
               | (s', Raise e) => (s', Raise e)
               end.
Proof. done. Qed.

Lemma set_agents_id w : set_agents (agents (game w)) w = w.
Proof. by destruct w as [[] ? ? ?]. Qed.

Lemma set_agents_twice l l' w :
  set_agents l (set_agents l' w) = set_agents l w.
Proof. done. Qed.

Lemma game_after_pick w a : game (after_pick w a) = game w.
Proof. unfold after_pick. by destruct (class_of a). Qed.

Lemma on_agent_run {A} (m : ST Agent A) w i a :
  agents (game w) !! i = Some a →
  on_agent i m w = (set_agents (<[i := (m a).1]> (agents (game w))) w, (m a).2).
Proof. intros Hi. unfold on_agent. rewrite Hi. by destruct (m a). Qed.

Lemma on_agent_gets {A} (f : Agent → A) w i a :
  agents (game w) !! i = Some a → on_agent i (gets f) w = (w, Return (f a)).
Proof.
  intros Hi. rewrite (on_agent_run _ _ _ _ Hi). simpl.
  by rewrite list_insert_id, set_agents_id.
Qed.

Lemma choose_action_run w i a o :
  agents (game w) !! i = Some a → agent_wf a →
  choose_action i o w = (after_pick w a, Return (pick w a o)).
Proof.
  intros Hi Hwf. unfold choose_action.
  rewrite bind_run, (on_agent_gets _ _ _ _ Hi).
  unfold after_pick, pick.
  destruct (class_of a) eqn:Hc; try done;
    rewrite (on_agent_run _ _ _ _ Hi), choose_action_of_wf by done; simpl;
    by rewrite list_insert_id, set_agents_id.
Qed.

Lemma get_payoffs_run w x y :
  get_payoffs x y w = (w, payoff_lookup (payoff_matrix (game w)) x y).
Proof.
  unfold get_payoffs, payoff_lookup. st_unfold.
  destruct (payoff_matrix (game w) !! action_key x) as [row|]; [|done].
  by destruct (row !! action_key y).
Qed.

Lemma play_round_run w i j a1 a2 :
  i ≠ j →
  agents (game w) !! i = Some a1 → agents (game w) !! j = Some a2 →
  agent_wf a1 → agent_wf a2 →
  play_round i j w = round_outcome i j a1 a2 w.
Proof.
  intros Hij Hi Hj Hwf1 Hwf2. unfold play_round, round_outcome.
  rewrite bind_run. unfold modify at 1.
  set (w0 := log_call (i, j) w).
  assert (agents (game w0) !! i = Some a1) as Hi0 by done.
  assert (agents (game w0) !! j = Some a2) as Hj0 by done.
  rewrite bind_run, (on_agent_gets _ _ _ _ Hj0).
  rewrite bind_run, (choose_action_run _ _ _ _ Hi0 Hwf1).
  set (w1 := after_pick w0 a1).
  assert (agents (game w1) !! i = Some a1) as Hi1
    by (by unfold w1; rewrite game_after_pick).
  assert (agents (game w1) !! j = Some a2) as Hj1
    by (by unfold w1; rewrite game_after_pick).
  rewrite bind_run, (on_agent_gets _ _ _ _ Hi1).
  rewrite bind_run, (choose_action_run _ _ _ _ Hj1 Hwf2).
  set (w2 := after_pick w1 a2).
  assert (game w2 = game w) as Hg2
    by (by unfold w2, w1; rewrite !game_after_pick).
  assert (agents (game w2) !! i = Some a1) as Hi2 by (by rewrite Hg2).
  assert (agents (game w2) !! j = Some a2) as Hj2 by (by rewrite Hg2).
  rewrite bind_run, (on_agent_gets _ _ _ _ Hj2).
  rewrite bind_run, (on_agent_run _ _ _ _ Hi2), update_history_wf by done.
  simpl fst; simpl snd. cbv iota.
  set (a1' := record_round _ _ _ a1).
  set (w3 := set_agents _ w2).
  assert (agents (game w3) !! i = Some a1') as Hi3.
  { simpl. apply list_lookup_insert_eq. by eapply lookup_lt_Some. }
  assert (agents (game w3) !! j = Some a2) as Hj3.
  { simpl. by rewrite list_lookup_insert_ne. }
  rewrite bind_run, (on_agent_gets _ _ _ _ Hi3).
  rewrite bind_run, (on_agent_run _ _ _ _ Hj3), update_history_wf by done.
  simpl fst; simpl snd. cbv iota.
  set (a2' := record_round _ _ _ a2).
  rewrite bind_run, get_payoffs_run.
  assert (payoff_matrix (game (set_agents (<[j:=a2']> (agents (game w3))) w3))
          = payoff_matrix (game w)) as -> by (simpl; by rewrite Hg2).
  assert (∀ l, set_agents l w2 =
            {| game := {| agents := l; payoff_matrix := payoff_matrix (game w);
                          rounds := rounds (game w) |};
               np_random := np_random w; draws := draws_after a1 a2 w;
               calls := calls w ++ [(i, j)] |}) as Hset.
  { intros l. unfold w2, w1, w0, draws_after, after_pick.
    by destruct (class_of a2), (class_of a1). }
  assert (pick w0 a1 (name a2) = first_action a1 a2 w) as Hx1.
  { unfold first_action, pick. by destruct (class_of a1). }
  assert (pick w1 a2 (name a1) = second_action a1 a2 w) as Hx2.
  { unfold second_action, pick, w1, w0, after_pick.
    by destruct (class_of a2), (class_of a1). }
  assert (set_agents (<[j:=a2']> (agents (game w3))) w3
          = set_agents (<[j:=a2']> (<[i:=a1']> (agents (game w)))) w2) as ->.
  { unfold w3. rewrite set_agents_twice. simpl. by rewrite Hg2. }
  rewrite Hx1, Hx2.
  destruct (payoff_lookup _ _ _) as [[p1 p2]|e].
  2: { rewrite Hset. unfold round_world, a1', a2'. by rewrite Hx1, Hx2. }
  set (w4 := set_agents _ w2).
  assert (agents (game w4) !! i = Some a1') as Hi4.
  { simpl. rewrite list_lookup_insert_ne by done.
    apply list_lookup_insert_eq. by eapply lookup_lt_Some. }
  rewrite bind_run, (on_agent_run _ _ _ _ Hi4). simpl fst; simpl snd. cbv iota.
  set (w5 := set_agents _ w4).
  assert (agents (game w5) !! j = Some a2') as Hj5.
  { simpl. rewrite list_lookup_insert_ne by done.
    apply list_lookup_insert_eq. rewrite length_insert.
    by eapply lookup_lt_Some. }
  rewrite (on_agent_run _ _ _ _ Hj5). simpl snd. f_equal.
  unfold w5, w4. rewrite !set_agents_twice, Hset. unfold round_world.
  do 2 f_equal. simpl.
  rewrite (list_insert_insert_ne _ i j) by done.
  rewrite !list_insert_insert_eq. unfold a1', a2'. by rewrite Hx1, Hx2.
Qed.
End world_lemmas.

(** ** Loops *)

Section loops.
Context {S X : Type}.
Implicit Types (body : X → ST S ()) (l : list X) (s : S).

Lemma for_each_cons body x l s :
  for_each (x :: l) body s =
  match body x s with
  | (s', Return _) => for_each l body s'
  | (s', Raise e) => (s', Raise e)
  end.
Proof. done. Qed.

Lemma for_each_app body l1 l2 s :
  for_each (l1 ++ l2) body s =
  match for_each l1 body s with
  | (s', Return _) => for_each l2 body s'
  | (s', Raise e) => (s', Raise e)
  end.
Proof.
  revert s. induction l1 as [|x l1 IH]; intros s; [done|].
  rewrite <- app_comm_cons, !for_each_cons.
  destruct (body x s) as [s' [[]|e]]; [apply IH|done].
Qed.

Lemma for_each_ext body body' l s :
  (∀ x s', x ∈ l → body x s' = body' x s') →
  for_each l body s = for_each l body' s.
Proof.
  revert s. induction l as [|x l IH]; intros s Hext; [done|].
  rewrite !for_each_cons, <- Hext by left.
  destruct (body x s) as [s' [[]|e]]; [|done].
  apply IH. intros y s'' Hy. apply Hext. by right.
Qed.

(** A property of the state that every iteration keeps, whether it
    returns or raises, holds when the loop ends. *)
Lemma for_each_preserves (I : S → Prop) body l s :
  (∀ x s', x ∈ l → I s' → I (body x s').1) →
  I s → I (for_each l body s).1.
Proof.
  revert s. induction l as [|x l IH]; intros s Hbody Hs; [done|].
  rewrite for_each_cons.
  assert (I (body x s).1) as Hx by (apply Hbody; [left|done]).
  destruct (body x s) as [s' [[]|e]]; simpl in *; [|done].
  apply IH; [|done]. intros y s'' Hy. apply Hbody. by right.
Qed.

(** Total correctness: if every iteration returns and takes the invariant
    from the iterations done so far to one more, the loop returns and the
    invariant holds of the whole list. *)
Lemma for_each_steps (I : list X → S → Prop) body l s :
  (∀ done x rest s', l = done ++ x :: rest → I done s' →
     ∃ s'', body x s' = (s'', Return ()) ∧ I (done ++ [x]) s'') →
  I [] s →
  ∃ s', for_each l body s = (s', Return ()) ∧ I l s'.
Proof.
  intros Hbody.
  cut (∀ rest done s, l = done ++ rest → I done s →
         ∃ s', for_each rest body s = (s', Return ()) ∧ I (done ++ rest) s').
  { intros Hcut Hs. by apply (Hcut l [] s). }
  induction rest as [|x rest IH]; intros done s0 Hl Hs.
  - rewrite app_nil_r. by exists s0.
  - destruct (Hbody done x rest s0 Hl Hs) as (s1 & Hrun & Hs1).
    rewrite for_each_cons, Hrun.
    destruct (IH (done ++ [x]) s1) as (s2 & Hrun2 & Hs2); [|done|].
    { by rewrite <- app_assoc. }
    exists s2. split; [done|]. by rewrite <- app_assoc in Hs2.
Qed.

(** Partial correctness: what an invariant kept by the returning
    iterations gives when the loop returns. *)
Lemma for_each_returns (I : list X → S → Prop) body l s s' :
  (∀ done x rest s1 s2, l = done ++ x :: rest → I done s1 →
     body x s1 = (s2, Return ()) → I (done ++ [x]) s2) →
  I [] s → for_each l body s = (s', Return ()) → I l s'.
Proof.
  intros Hbody.
  cut (∀ rest done s, l = done ++ rest → I done s →
         for_each rest body s = (s', Return ()) → I (done ++ rest) s').
  { intros Hcut Hs. by apply (Hcut l [] s). }
  induction rest as [|x rest IH]; intros done s0 Hl Hs Hrun.
  - rewrite app_nil_r. by injection Hrun as <-.
  - rewrite for_each_cons in Hrun.
    destruct (body x s0) as [s1 [[]|e]] eqn:Hx; [|done].
    replace (done ++ x :: rest) with ((done ++ [x]) ++ rest)
      by (by rewrite <- app_assoc).
    apply (IH _ s1); [by rewrite <- app_assoc| |done].
    by eapply Hbody.
Qed.
End loops.

Lemma for_each_map {S X Y} (g : X → Y) (body : Y → ST S ()) (l : list X) s :
  for_each (map g l) body s = for_each l (λ x, body (g x)) s.
Proof.
  revert s. induction l as [|x l IH]; intros s; [done|].
  simpl map. rewrite !for_each_cons.
  destruct (body (g x) s) as [s' [[]|e]]; [apply IH|done].
Qed.

Lemma for_each_flat_map {S X Y} (g : X → list Y) (body : Y → ST S ())
    (l : list X) s :
  for_each (flat_map g l) body s = for_each l (λ x, for_each (g x) body) s.
Proof.
  revert s. induction l as [|x l IH]; intros s; [done|].
  simpl flat_map. rewrite for_each_app, for_each_cons.
  destruct (for_each (g x) body s) as [s' [[]|e]]; [apply IH|done].
Qed.

(** ** The schedule of one round *)

Lemma elem_of_pairs n i j : (i, j) ∈ pairs n ↔ i < j ∧ j < n.
Proof.
  unfold pairs. rewrite list_elem_of_In, in_flat_map. split.
  - intros (i' & Hi' & Hin). apply in_map_iff in Hin as (j' & [= <- <-] & Hj').
    apply in_seq in Hi', Hj'. lia.
  - intros [Hij Hj]. exists i. split; [apply in_seq; lia|].
    apply in_map_iff. exists j. split; [done|]. apply in_seq. lia.
Qed.

Lemma NoDup_pairs n : NoDup (pairs n).
Proof.
  unfold pairs. pose proof (NoDup_seq 0 n) as Hnd. revert Hnd.
  generalize (seq 0 n). intros l.
  induction l as [|i l IH]; intros Hnd; simpl; [constructor|].
  apply NoDup_cons in Hnd as [Hi Hnd]. apply NoDup_app. split_and!.
  - apply (NoDup_fmap_2 (pair i)), NoDup_seq.
  - intros [i' j'] Hin Hin'.
    apply list_elem_of_In, in_map_iff in Hin as (? & [= <- <-] & _).
    apply list_elem_of_In, in_flat_map in Hin' as (i'' & Hi'' & Hin').
    apply in_map_iff in Hin' as (? & [= <- <-] & _).
    by apply Hi, list_elem_of_In.
  - by apply IH.
Qed.

Lemma length_pairs n : 2 * length (pairs n) = n * (n - 1).
Proof.
  unfold pairs.
  assert (∀ k m, 2 * length (flat_map (λ i, map (pair i) (seq (i + 1) (k + m - (i + 1))))
                               (seq m k)) = k * (k - 1)) as H.
  { induction k as [|k IH]; intros m; [done|].
    simpl flat_map. rewrite length_app, length_map, length_seq.
    replace (S (k + m)) with (k + S m) by lia.
    rewrite Nat.mul_add_distr_l, (IH (S m)).
    destruct k as [|k']; [lia|].
    replace (S k' - 1) with k' by lia. replace (S (S k') - 1) with (S k') by lia.
    nia. }
  specialize (H n 0). by rewrite Nat.add_0_r in H.
Qed.

(** ** What one round changes *)

Section round_lemmas.
Implicit Types (w : World) (a : Agent) (i j : nat).

Lemma round_outcome_world i j a1 a2 w :
  ∃ x1 x2 z1 z2 d,
    (round_outcome i j a1 a2 w).1 = round_world i j a1 a2 x1 x2 z1 z2 d w.
Proof.
  unfold round_outcome. destruct (payoff_lookup _ _ _) as [[p1 p2]|e]; eauto 10.
Qed.

(** The effect of [play_round] on a well-formed world. *)
Lemma play_round_world w i j :
  world_wf w → i ≠ j →
  i < length (agents (game w)) → j < length (agents (game w)) →
  ∃ a1 a2 x1 x2 z1 z2 d,
    agents (game w) !! i = Some a1 ∧ agents (game w) !! j = Some a2 ∧
    (play_round i j w).1 = round_world i j a1 a2 x1 x2 z1 z2 d w.
Proof.
  intros Hwf Hij Hi Hj.
  destruct (lookup_lt_is_Some_2 _ _ Hi) as [a1 H1].
  destruct (lookup_lt_is_Some_2 _ _ Hj) as [a2 H2].
  destruct (round_outcome_world i j a1 a2 w) as (x1 & x2 & z1 & z2 & d & Hw).
  exists a1, a2, x1, x2, z1, z2, d. split_and!; [done..|].
  by rewrite (play_round_run w i j a1 a2) by eauto.
Qed.

Lemma round_world_lookup i j a1 a2 x1 x2 z1 z2 d w k :
  i ≠ j → agents (game w) !! i = Some a1 → agents (game w) !! j = Some a2 →
  agents (game (round_world i j a1 a2 x1 x2 z1 z2 d w)) !! k =
    if decide (k = j) then Some (set_score z2 (record_round (name a1) x2 x1 a2))
    else if decide (k = i)
         then Some (set_score z1 (record_round (name a2) x1 x2 a1))
         else agents (game w) !! k.
Proof.
  intros Hij Hi Hj. simpl.
  apply lookup_lt_Some in Hi, Hj.
  destruct (decide (k = j)) as [->|Hkj].
  { apply list_lookup_insert_eq. by rewrite length_insert. }
  rewrite list_lookup_insert_ne by done.
  destruct (decide (k = i)) as [->|Hki].
  { by apply list_lookup_insert_eq. }
  by rewrite list_lookup_insert_ne.
Qed.

Lemma round_world_wf i j a1 a2 x1 x2 z1 z2 d w :
  i ≠ j → agents (game w) !! i = Some a1 → agents (game w) !! j = Some a2 →
  world_wf w → world_wf (round_world i j a1 a2 x1 x2 z1 z2 d w).
Proof.
  intros Hij Hi Hj Hwf k a. rewrite round_world_lookup by done.
  repeat case_decide; intros Hk; simplify_eq.
  - apply set_score_wf, record_round_wf. eauto.
  - apply set_score_wf, record_round_wf. eauto.
  - eauto.
Qed.

Lemma round_world_setup i j a1 a2 x1 x2 z1 z2 d w :
  agents (game w) !! i = Some a1 → agents (game w) !! j = Some a2 →
  same_setup w (round_world i j a1 a2 x1 x2 z1 z2 d w).
Proof.
  intros Hi Hj. unfold same_setup. simpl. split_and!; try done.
  - rewrite !list_fmap_insert. simpl.
    rewrite !list_insert_id; [done|by rewrite list_lookup_fmap, Hi|].
    rewrite list_insert_id by (by rewrite list_lookup_fmap, Hi).
    by rewrite list_lookup_fmap, Hj.
  - rewrite !list_fmap_insert. simpl.
    rewrite !list_insert_id; [done|by rewrite list_lookup_fmap, Hi|].
    rewrite list_insert_id by (by rewrite list_lookup_fmap, Hi).
    by rewrite list_lookup_fmap, Hj.
Qed.

Lemma same_setup_refl w : same_setup w w.
Proof. by unfold same_setup. Qed.

Lemma same_setup_trans w0 w1 w2 :
  same_setup w0 w1 → same_setup w1 w2 → same_setup w0 w2.
Proof. unfold same_setup. intros (?&?&?&?&?) (?&?&?&?&?). split_and!; congruence. Qed.

Lemma same_setup_length w0 w :
  same_setup w0 w → length (agents (game w)) = length (agents (game w0)).
Proof. intros [H _]. apply (f_equal length) in H. by rewrite !length_fmap in H. Qed.

Lemma same_setup_names w0 w :
  same_setup w0 w → unique_names w0 → unique_names w.
Proof. intros [H _]. unfold unique_names. by rewrite H. Qed.

Lemma unique_names_ne w i j a b :
  unique_names w →
  agents (game w) !! i = Some a → agents (game w) !! j = Some b →
  i ≠ j → name a ≠ name b.
Proof.
  intros Hnd Hi Hj Hij Hab. apply Hij.
  apply (NoDup_lookup _ i j (name a) Hnd); rewrite list_lookup_fmap.
  - by rewrite Hi.
  - by rewrite Hj, Hab.
Qed.

Lemma round_world_agree i j a1 a2 x1 x2 z1 z2 d w :
  i ≠ j → agents (game w) !! i = Some a1 → agents (game w) !! j = Some a2 →
  unique_names w → histories_agree w →
  histories_agree (round_world i j a1 a2 x1 x2 z1 z2 d w).
Proof.
  intros Hij Hi Hj Hnd Hag i' j' a b Hij'.
  rewrite !round_world_lookup by done.
  repeat case_decide; intros Ha Hb; simplify_eq; simpl;
    rewrite ?lookup_insert_eq;
    rewrite ?lookup_insert_ne
      by (eapply (unique_names_ne w);
          [exact Hnd|eassumption|eassumption|congruence]);
    first [ eapply Hag; [|eassumption|eassumption]; congruence
          | do 3 f_equal; eapply Hag; [|eassumption|eassumption]; congruence ].
Qed.
End round_lemmas.

(** ** The run as a sequence of rounds *)

Lemma schedule_S r n : schedule (S r) n = schedule r n ++ pairs n.
Proof.
  unfold schedule. induction r as [|r IH]; simpl in *.
  - by rewrite app_nil_r.
  - rewrite <- app_assoc. f_equal. exact IH.
Qed.

Lemma length_schedule r n : 2 * length (schedule r n) = r * (n * (n - 1)).
Proof.
  induction r as [|r IH]; [done|].
  rewrite schedule_S, length_app, Nat.mul_add_distr_l, IH, length_pairs. lia.
Qed.

Lemma run_rounds w :
  run w = for_each (seq 0 (rounds (game w))) (λ _, round) w.
Proof.
  unfold run. rewrite bind_run. unfold gets at 1.
  apply for_each_ext. intros _ w' _. rewrite bind_run. unfold gets at 1.
  unfold round, pairs. rewrite for_each_flat_map.
  apply for_each_ext. intros i w'' _. by rewrite for_each_map.
Qed.

Section stable_lemmas.
Implicit Types (w : World) (p : nat * nat).

Lemma stable_refl w : world_wf w → stable w w.
Proof. intros Hwf. split_and!; [apply same_setup_refl|done|done]. Qed.

Lemma play_stable w0 w p :
  stable w0 w → p ∈ pairs (length (agents (game w0))) →
  stable w0 (play p w).1.
Proof.
  intros (Hset & Hwf & Hag) Hp. destruct p as [i j].
  apply elem_of_pairs in Hp as [Hij Hj].
  rewrite <- (same_setup_length w0 w Hset) in Hj.
  destruct (play_round_world w i j) as
    (a1 & a2 & x1 & x2 & z1 & z2 & d & Hi' & Hj' & Hw); [done|lia..|].
  unfold play. simpl. rewrite Hw. split_and!.
  - eapply same_setup_trans; [done|]. by apply round_world_setup.
  - apply round_world_wf; [lia|done..].
  - intros Hnd Hag0. apply round_world_agree; [lia|done..| |by apply Hag].
    by eapply same_setup_names.
Qed.

Lemma round_stable w0 w : stable w0 w → stable w0 (round w).1.
Proof.
  intros Hst. unfold round. apply for_each_preserves; [|done].
  intros p w' Hp Hst'. apply play_stable; [done|].
  destruct Hst as (Hset & _). by rewrite <- (same_setup_length w0 w Hset).
Qed.

Lemma run_stable w : world_wf w → stable w (run w).1.
Proof.
  intros Hwf. rewrite run_rounds.
  apply for_each_preserves; [|by apply stable_refl].
  intros _ w' _. apply round_stable.
Qed.
End stable_lemmas.

Section played_lemmas.
Implicit Types (w : World) (l : list (nat * nat)).

Lemma played_setup l w w' : played l w w' → same_setup w w'.
Proof.
  induction 1 as [|l w w' i j a1 a2 p _ IH Hij Hi Hj Hp].
  - apply same_setup_refl.
  - eapply same_setup_trans; [done|]. by apply round_world_setup.
Qed.

Lemma played_wf l w w' : played l w w' → world_wf w → world_wf w'.
Proof.
  induction 1 as [|l w w' i j a1 a2 p _ IH Hij Hi Hj Hp]; [done|].
  intros Hwf. apply round_world_wf; auto.
Qed.

Lemma played_calls l w w' : played l w w' → calls w' = calls w ++ l.
Proof.
  induction 1 as [|l w w' i j a1 a2 p _ IH Hij Hi Hj Hp]; simpl.
  - by rewrite app_nil_r.
  - by rewrite IH, app_assoc.
Qed.

(** A returning [play_round] call extends [played]. *)
Lemma play_played l w w1 w2 i j :
  world_wf w → played l w w1 →
  i < j → j < length (agents (game w)) →
  play (i, j) w1 = (w2, Return ()) →
  played (l ++ [(i, j)]) w w2.
Proof.
  intros Hwf Hpl Hij Hj Hrun.
  pose proof (played_wf _ _ _ Hpl Hwf) as Hwf1.
  rewrite <- (same_setup_length _ _ (played_setup _ _ _ Hpl)) in Hj.
  destruct (lookup_lt_is_Some_2 (agents (game w1)) i) as [a1 H1]; [lia|].
  destruct (lookup_lt_is_Some_2 (agents (game w1)) j) as [a2 H2]; [lia|].
  unfold play in Hrun. simpl in Hrun.
  rewrite (play_round_run w1 i j a1 a2) in Hrun by (eauto; lia).
  unfold round_outcome in Hrun.
  destruct (payoff_lookup _ _ _) as [p|e] eqn:Hp; [|done].
  injection Hrun as <-. apply played_snoc; [done|lia|done..].
Qed.

(** With a complete payoff matrix every call returns. *)
Lemma play_returns w i j :
  world_wf w → matrix_complete (payoff_matrix (game w)) →
  i < j → j < length (agents (game w)) →
  ∃ w', play (i, j) w = (w', Return ()).
Proof.
  intros Hwf Hpm Hij Hj.
  destruct (lookup_lt_is_Some_2 (agents (game w)) i) as [a1 H1]; [lia|].
  destruct (lookup_lt_is_Some_2 (agents (game w)) j) as [a2 H2]; [lia|].
  unfold play. simpl.
  rewrite (play_round_run w i j a1 a2) by (eauto; lia).
  unfold round_outcome.
  destruct (Hpm (first_action a1 a2 w) (second_action a1 a2 w)) as [p Hp].
  rewrite Hp. eauto.
Qed.

(** A run that returns is the sequence of calls of its schedule. *)
Lemma run_played w w' :
  world_wf w → run w = (w', Return ()) →
  played (schedule (rounds (game w)) (length (agents (game w)))) w w'.
Proof.
  intros Hwf. rewrite run_rounds.
  set (n := length (agents (game w))).
  intros Hrun.
  cut (played (schedule (length (seq 0 (rounds (game w)))) n) w w').
  { by rewrite length_seq. }
  revert Hrun.
  apply (for_each_returns (λ done s, played (schedule (length done) n) w s));
    [|constructor].
  intros done k rest s1 s2 _ Hpl Hround.
  rewrite length_app, Nat.add_1_r, schedule_S.
  assert (length (agents (game s1)) = n) as Hn
    by apply (same_setup_length _ _ (played_setup _ _ _ Hpl)).
  unfold round in Hround. rewrite Hn in Hround. revert Hround.
  rewrite <- (app_nil_r (schedule _ _)) in Hpl. revert Hpl.
  apply (for_each_returns
           (λ done' s, played (schedule (length done) n ++ done') w s)).
  intros done' [i j] rest' s3 s4 Hpairs Hpl Hplay.
  assert ((i, j) ∈ pairs n) as [Hij Hj]%elem_of_pairs.
  { rewrite Hpairs. apply elem_of_app. right. by left. }
  rewrite app_assoc. by eapply play_played.
Qed.

Lemma run_returns w :
  world_wf w → matrix_complete (payoff_matrix (game w)) →
  ∃ w', run w = (w', Return ()).
Proof.
  intros Hwf Hpm. rewrite run_rounds.
  destruct (for_each_steps (λ _ s, stable w s)
              (λ _, round) (seq 0 (rounds (game w))) w) as (w' & Hrun & _);
    [|by apply stable_refl|by exists w'].
  intros done k rest s1 _ Hst. unfold round.
  destruct (for_each_steps (λ _ s, stable w s) play
              (pairs (length (agents (game s1)))) s1) as (s2 & Hrun & Hst2);
    [|done|by exists s2].
  intros done' [i j] rest' s3 Hpairs Hst3.
  assert ((i, j) ∈ pairs (length (agents (game s1)))) as Hin.
  { rewrite Hpairs. apply elem_of_app. right. by left. }
  pose proof Hin as [Hij Hj]%elem_of_pairs.
  destruct Hst as (Hset1 & _). pose proof Hst3 as (Hset3 & Hwf3 & _).
  destruct (play_returns s3 i j) as [s4 Hs4]; [done| |done| |].
  - destruct Hset3 as (_ & _ & -> & _). done.
  - by rewrite (same_setup_length _ _ Hset3), <- (same_setup_length _ _ Hset1).
  - exists s4. split; [done|].
    replace s4 with (play (i, j) s3).1 by (by rewrite Hs4).
    apply play_stable; [done|].
    by rewrite <- (same_setup_length _ _ Hset1).
Qed.
End played_lemmas.

(** ** Freshly constructed games *)

Lemma create_all_fresh f l ags :
  create_all f l = Return ags →
  Forall fresh ags ∧ name <$> ags = cfg_name <$> l.
Proof.
  revert ags. induction l as [|c l IH]; intros ags; simpl.
  - by intros [= <-].
  - unfold create. destruct (agent_classes f !! cfg_type c) as [cls|]; [|done].
    destruct (create_all f l) as [ags'|]; [|done]. intros [= <-].
    destruct (IH ags' eq_refl) as [Hfr Hnm]. split.
    + by constructor.
    + rewrite !fmap_cons. by f_equal.
Qed.

Lemma init_fresh cfg f g :
  PrisonersDilemma_init cfg f = Return g →
  Forall fresh (agents g) ∧
  Some (payoff_matrix g) = cfg_payoff_matrix cfg ∧
  Some (rounds g) = cfg_rounds cfg ∧
  ∃ l, cfg_agents cfg = Some l ∧ name <$> agents g = cfg_name <$> l.
Proof.
  unfold PrisonersDilemma_init.
  destruct (cfg_agents cfg) as [l|]; [|done].
  destruct (create_all f l) as [ags|] eqn:Hags; [|done].
  destruct (cfg_payoff_matrix cfg) as [pm|]; [|done].
  destruct (cfg_rounds cfg) as [r|]; [|done]. intros [= <-]. simpl.
  destruct (create_all_fresh _ _ _ Hags). eauto 10.
Qed.

Lemma fresh_wf a : fresh a → agent_wf a.
Proof. intros (Hh & Hoh & _) o. by rewrite Hh, Hoh, !lookup_empty. Qed.

Lemma start_wf g rnd : Forall fresh (agents g) → world_wf (start g rnd).
Proof.
  intros Hfr i a Hi. apply fresh_wf.
  by apply (proj1 (Forall_lookup _ _) Hfr i a).
Qed.

Lemma start_agree g rnd : Forall fresh (agents g) → histories_agree (start g rnd).
Proof.
  intros Hfr i j a b _ Hi Hj. simpl in *.
  destruct (proj1 (Forall_lookup _ _) Hfr i a Hi) as (-> & _).
  destruct (proj1 (Forall_lookup _ _) Hfr j b Hj) as (_ & -> & _).
  by rewrite !lookup_empty.
Qed.

(** ** Evaluating the model *)

Example tit_for_tat_first_move :
  TitForTatAgent_choose_action "b" (new_agent TitForTatAgent "a")
  = (new_agent TitForTatAgent "a", Return Cooperate).
Proof. reflexivity. Qed.

Example tit_for_tat_repeats_last_move :
  let a := record_round "b" Cooperate Defect (new_agent TitForTatAgent "a") in
  TitForTatAgent_choose_action "b" a = (a, Return Defect).
Proof. by vm_compute. Qed.

Example grudger_keeps_defecting :
  let a := record_round "b" Defect Cooperate
             (record_round "b" Cooperate Defect (new_agent GrudgerAgent "a")) in
  GrudgerAgent_choose_action "b" a = (a, Return Defect) ∧
  GrudgerAgent_choose_action "c" a = (a, Return Cooperate).
Proof. by vm_compute. Qed.

Example tit_for_tat_on_empty_list_raises :
  let a := set_oponent_history {[ "b" := [] ]}
             (set_history {[ "b" := [] ]} (new_agent TitForTatAgent "a")) in
  TitForTatAgent_choose_action "b" a = (a, Raise IndexError).
Proof. by vm_compute. Qed.

Example three_agents_one_round :
  let g := {| agents := [ new_agent RandomAgent "r";
                          new_agent GrudgerAgent "g";
                          new_agent RandomAgent "s" ];
              payoff_matrix := std_matrix; rounds := 1 |} in
  let rnd := λ k : nat, if Nat.even k then Defect else Cooperate in
  ∃ w, run (start g rnd) = (w, Return ()) ∧
       calls w = [(0, 1); (0, 2); (1, 2)] ∧
       draws w = 4 ∧
       history <$> agents (game w) =
         [ {[ "g" := [Defect]; "s" := [Cooperate] ]};
           {[ "r" := [Cooperate]; "s" := [Cooperate] ]};
           {[ "r" := [Defect]; "g" := [Cooperate] ]} ] ∧
       score <$> agents (game w) = [5; 3; 8]%Z.
Proof. intros g rnd. eexists. by vm_compute. Qed.

(** ** The histories of one agent *)

(** C10.  An agent object is created with two empty dictionaries, and
    whatever [update_history] calls are made on it afterwards, every call
    returns, the two dictionaries have the same keys, every list stored in
    them is non-empty, and so [TitForTatAgent.choose_action] returns an
    action for every opponent name: its access to the last element of
    [oponent_history[opponent_name]] never fails. *)
Theorem update_history_keeps_histories_nonempty :
  ∀ (c : AgentClass) (nm : string) (l : list (string * Action * Action)),
    ∃ a, update_all l (new_agent c nm) = (a, Return ()) ∧
         dom (history a) = dom (oponent_history a) ∧
         (∀ o h, history a !! o = Some h → h ≠ []) ∧
         (∀ o oh, oponent_history a !! o = Some oh → oh ≠ []) ∧
         ∀ o, ∃ x, TitForTatAgent_choose_action o a = (a, Return x).
Proof.
  intros c nm l.
  destruct (for_each_steps (λ _ a, agent_wf a)
              (λ c : string * Action * Action,
                 update_history c.1.1 c.1.2 c.2) l (new_agent c nm))
    as (a & Hrun & Hwf).
  { intros done [[o x] y] rest a _ Hwf. simpl.
    rewrite update_history_wf by done. eauto using record_round_wf. }
  { apply new_agent_wf. }
  exists a. split; [done|]. split_and!.
  - apply set_eq. intros o. rewrite !elem_of_dom. specialize (Hwf o).
    destruct (history a !! o), (oponent_history a !! o); try done;
      split; intros [? ?]; by eauto.
  - intros o h Ho ->. specialize (Hwf o). rewrite Ho in Hwf.
    destruct (oponent_history a !! o); simpl in Hwf; [lia|done].
  - intros o oh Ho ->. specialize (Hwf o). rewrite Ho in Hwf.
    destruct (history a !! o); simpl in Hwf; [lia|done].
  - intros o. exists (chosen TitForTatAgent o a).
    apply (choose_action_of_wf TitForTatAgent o a Hwf).
Qed.

(** ** Tit for two tats *)

(** C9.  On well-formed histories [TitForTwoTatsAgent.choose_action]
    returns ['defect'] exactly when the list recorded for the opponent ends
    with two ['defect'] (so has at least two elements) and returns
    ['cooperate'] otherwise; in particular it defects on
    [['defect', 'defect']] and cooperates on [['cooperate', 'defect']] and
    [['defect', 'cooperate']]. *)
Theorem tit_for_two_tats_defects_iff_last_two_defect :
  ∀ (a : Agent) (o : string),
    agent_wf a →
    (TitForTwoTatsAgent_choose_action o a = (a, Return Defect) ↔
       ∃ l, oponent_history a !! o = Some (l ++ [Defect; Defect])) ∧
    ((¬ ∃ l, oponent_history a !! o = Some (l ++ [Defect; Defect])) →
       TitForTwoTatsAgent_choose_action o a = (a, Return Cooperate)) ∧
    (oponent_history a !! o = Some [Defect; Defect] →
       TitForTwoTatsAgent_choose_action o a = (a, Return Defect)) ∧
    (oponent_history a !! o = Some [Cooperate; Defect] →
       TitForTwoTatsAgent_choose_action o a = (a, Return Cooperate)) ∧
    (oponent_history a !! o = Some [Defect; Cooperate] →
       TitForTwoTatsAgent_choose_action o a = (a, Return Cooperate)).
Proof.
  intros a o Hwf.
  assert ((TitForTwoTatsAgent_choose_action o a = (a, Return Defect) ∧
           ∃ l, oponent_history a !! o = Some (l ++ [Defect; Defect])) ∨
          (TitForTwoTatsAgent_choose_action o a = (a, Return Cooperate) ∧
           ¬ ∃ l, oponent_history a !! o = Some (l ++ [Defect; Defect])))
    as Hrun.
  { specialize (Hwf o).
    unfold TitForTwoTatsAgent_choose_action, dict_mem. st_unfold.
    destruct (history a !! o) as [h|] eqn:Hh;
      destruct (oponent_history a !! o) as [oh|] eqn:Hoh; try done; simpl.
    2: { right. split; [done|]. by intros [l ?]. }
    destruct (decide (2 ≤ length h)) as [H2|H2].
    2: { right. split; [done|]. intros [l [= ->]].
         rewrite length_app in Hwf. simpl in Hwf. lia. }
    rewrite Hoh. destruct (snoc2_inv oh) as (l & x & y & ->); [lia|].
    rewrite py_getitem_last_of2. destruct (decide (y = Defect)) as [->|Hy]; simpl.
    2: { right. split; [done|]. intros [l' [= Heq]].
         by apply (app_inj_2 _ _ [x; y] [Defect; Defect]) in Heq as [_ [=]]. }
    rewrite Hoh, py_getitem_last2.
    destruct (decide (x = Defect)) as [->|Hx]; simpl.
    - left. split; [done|]. by exists l.
    - right. split; [done|]. intros [l' [= Heq]].
      by apply (app_inj_2 _ _ [x; Defect] [Defect; Defect]) in Heq as [_ [=]]. }
  assert (∀ x y, oponent_history a !! o = Some [x; y] →
            (∃ l, oponent_history a !! o = Some (l ++ [Defect; Defect])) →
            x = Defect ∧ y = Defect) as Htwo.
  { intros x y Ho [l Hl]. rewrite Ho in Hl. injection Hl as Heq.
    by apply (app_inj_2 [] l [x; y] [Defect; Defect]) in Heq as [_ [= -> ->]]. }
  split_and!.
  - destruct Hrun as [[-> Hl]|[-> Hl]]; split; done.
  - intros Hno. by destruct Hrun as [[_ Hl]|[-> _]].
  - intros Ho. destruct Hrun as [[-> _]|[_ Hl]]; [done|].
    exfalso. apply Hl. by exists [].
  - intros Ho. destruct Hrun as [[_ Hl]|[-> _]]; [|done].
    by destruct (Htwo _ _ Ho Hl).
  - intros Ho. destruct Hrun as [[_ Hl]|[-> _]]; [|done].
    by destruct (Htwo _ _ Ho Hl).
Qed.

Lemma tit_for_two_tats_witness :
  agent_wf tf2t_example ∧
  oponent_history tf2t_example !! "b" = Some [Defect; Defect] ∧
  TitForTwoTatsAgent_choose_action "b" tf2t_example
    = (tf2t_example, Return Defect).
Proof.
  assert (agent_wf tf2t_example) as Hwf
    by (do 2 apply record_round_wf; apply new_agent_wf).
  split; [exact Hwf|]. split; [reflexivity|].
  destruct (tit_for_two_tats_defects_iff_last_two_defect tf2t_example "b" Hwf)
    as (_ & _ & H & _).
  apply H. reflexivity.
Defined.

(** ** The factory *)

(** C7.  When [kind] is not a key of the factory's dictionary,
    [create(kind, name)] raises the [ValueError] saying that the class is
    not registered and returns no agent; and the construction of a game
    from a configuration that lists an agent of that kind raises such an
    error, so that no game object exists on which [run] could be called. *)
Theorem create_unregistered_raises :
  ∀ (f : AgentFactory) (kind : string),
    agent_classes f !! kind = None →
    (∀ nm, create f kind nm = Raise (ValueError (not_registered_msg kind))) ∧
    (∀ cfg l c,
       cfg_agents cfg = Some l → c ∈ l → cfg_type c = kind →
       ∃ k, agent_classes f !! k = None ∧
            PrisonersDilemma_init cfg f = Raise (ValueError (not_registered_msg k))).
Proof.
  intros f kind Hkind. split.
  - intros nm. unfold create. by rewrite Hkind.
  - intros cfg l c Hl Hc Hty. unfold PrisonersDilemma_init. rewrite Hl.
    cut (∃ k, agent_classes f !! k = None ∧
              create_all f l = Raise (ValueError (not_registered_msg k))).
    { intros (k & Hk & ->). eauto. }
    clear Hl. induction l as [|c' l IH]; [by apply elem_of_nil in Hc|].
    simpl. unfold create at 1.
    destruct (agent_classes f !! cfg_type c') as [cls|] eqn:Hc'.
    + apply elem_of_cons in Hc as [->|Hc]; [congruence|].
      destruct (IH Hc) as (k & Hk & ->). eauto.
    + eauto.
Qed.

Lemma create_unregistered_witness :
  agent_classes factory !! "Pavlov" = None ∧
  create factory "Pavlov" "p"
    = Raise (ValueError "Agent class 'Pavlov' not registered.") ∧
  ∃ k, agent_classes factory !! k = None ∧
       PrisonersDilemma_init cfg_unregistered factory
         = Raise (ValueError (not_registered_msg k)).
Proof.
  assert (agent_classes factory !! "Pavlov" = None) as Hk by reflexivity.
  destruct (create_unregistered_raises factory "Pavlov" Hk) as [Hcreate Hinit].
  split; [exact Hk|]. split; [exact (Hcreate "p")|].
  apply (Hinit cfg_unregistered _ (mkAgentConfig "Pavlov" "p") eq_refl);
    [|reflexivity].
  apply elem_of_cons. right. apply elem_of_cons. by left.
Defined.

(** ** The standard scenario *)

(** C6.  Two agents, TitForTat and Defector, the standard payoff matrix and
    three rounds: the game is constructed, [run] returns, TitForTat played
    cooperate, defect, defect and scores 2, Defector played defect three
    times and scores 7. *)
Theorem tft_vs_defector_three_rounds :
  ∀ rnd : nat → Action,
    PrisonersDilemma_init tft_vs_defector factory = Return tft_vs_defector_game ∧
    ∃ w, run (start tft_vs_defector_game rnd) = (w, Return ()) ∧
         two_agent_summary w =
           (Some ([Cooperate; Defect; Defect], 2%Z),
            Some ([Defect; Defect; Defect], 7%Z)) ∧
         oponent_history <$> agents (game w) =
           [ {[ "d" := [Defect; Defect; Defect] ]};
             {[ "tft" := [Cooperate; Defect; Defect] ]} ].
Proof.
  intros rnd. split; [by vm_compute|].
  eexists. split; [by vm_compute|]. split; by vm_compute.
Qed.

(** ** Consistency of the histories *)

Lemma world_inv_consistent w : world_inv w → histories_consistent w.
Proof.
  intros (Hnd & Hwf & Hag) i j a b h Hij Hi Hj Hh.
  pose proof (Hwf i a Hi (name b)) as Hwa. rewrite Hh in Hwa.
  destruct (oponent_history a !! name b) as [oh|] eqn:Hoh; [|done].
  pose proof (Hag i j a b Hij Hi Hj) as H1. rewrite Hh in H1.
  pose proof (Hag j i b a (not_eq_sym Hij) Hj Hi) as H2. rewrite Hoh in H2.
  exists oh, oh, h. split_and!; try done; lia.
Qed.

Lemma stable_inv w0 w : world_inv w0 → stable w0 w → world_inv w.
Proof.
  intros (Hnd & _ & Hag) (Hset & Hwf & Hag'). split_and!; [|done|by apply Hag'].
  by eapply same_setup_names.
Qed.

Lemma reachable_inv w0 w : world_inv w0 → reachable w0 w → world_inv w.
Proof.
  intros H0. induction 1 as [|w i j _ IH Hij Hi Hj|w _ IH]; [done|..].
  - destruct IH as (Hnd & Hwf & Hag).
    destruct (play_round_world w i j) as
      (a1 & a2 & x1 & x2 & z1 & z2 & d & Hi' & Hj' & ->); [done..|].
    split_and!.
    + eapply same_setup_names; [by apply round_world_setup|done].
    + by apply round_world_wf.
    + by apply round_world_agree.
  - apply (stable_inv w); [done|]. apply run_stable. by destruct IH as (_ & ? & _).
Qed.

(** C1.  In a game constructed from a configuration whose agent names are
    pairwise distinct, after any sequence of [play_round] calls between two
    distinct agents and of [run] calls (whether they return or raise), any
    two distinct agents [a] and [b] that have played each other hold four
    lists of the same length about each other, the own actions recorded by
    each being the opponent actions recorded by the other. *)
Theorem histories_consistent_after_any_run :
  ∀ cfg f g rnd w,
    PrisonersDilemma_init cfg f = Return g →
    NoDup (name <$> agents g) →
    reachable (start g rnd) w →
    histories_consistent w.
Proof.
  intros cfg f g rnd w Hinit Hnd Hreach.
  apply world_inv_consistent, (reachable_inv (start g rnd)); [|done].
  destruct (init_fresh _ _ _ Hinit) as (Hfr & _).
  split_and!; [done|by apply start_wf|by apply start_agree].
Qed.

Lemma histories_consistent_witness :
  PrisonersDilemma_init tft_vs_defector factory = Return tft_vs_defector_game ∧
  NoDup (name <$> agents tft_vs_defector_game) ∧
  histories_consistent
    (run (start tft_vs_defector_game (λ _, Cooperate))).1.
Proof.
  assert (NoDup (name <$> agents tft_vs_defector_game)) as Hnd.
  { apply (bool_decide_unpack (NoDup (name <$> agents tft_vs_defector_game))).
    vm_compute. exact I. }
  split; [reflexivity|]. split; [exact Hnd|].
  apply (histories_consistent_after_any_run tft_vs_defector factory
           tft_vs_defector_game (λ _, Cooperate)); [reflexivity|exact Hnd|].
  apply reachable_run, reachable_start.
Defined.

(** ** The calls made by a run *)

(** C4.  From a world with well-formed histories, [run] returns when the
    payoff matrix is complete; and whenever [run] returns, the [play_round]
    calls it made are, [r] times over, the pairs of [pairs n]: that is
    [r * n * (n - 1) / 2] calls, and in each round every pair of positions
    [i < j < n] occurs exactly once and no other pair occurs (so no agent
    plays itself and no pair is played in both orders). *)
Theorem run_plays_every_pair_once_per_round :
  ∀ w,
    world_wf w →
    let n := length (agents (game w)) in
    let r := rounds (game w) in
    (matrix_complete (payoff_matrix (game w)) →
       ∃ w', run w = (w', Return ())) ∧
    (∀ w', run w = (w', Return ()) →
           calls w' = calls w ++ concat (replicate r (pairs n)) ∧
           length (calls w') = length (calls w) + r * n * (n - 1) / 2) ∧
    length (concat (replicate r (pairs n))) = r * n * (n - 1) / 2 ∧
    NoDup (pairs n) ∧
    (∀ i j, (i, j) ∈ pairs n ↔ i < j ∧ j < n) ∧
    (∀ i, (i, i) ∉ pairs n) ∧
    (∀ i j, (i, j) ∈ pairs n → (j, i) ∉ pairs n).
Proof.
  intros w Hwf n r.
  assert (length (concat (replicate r (pairs n))) = r * n * (n - 1) / 2) as Hlen.
  { pose proof (length_schedule r n) as Hlen. unfold schedule in Hlen.
    apply (Nat.div_unique_exact _ 2); lia. }
  split_and!.
  - by apply run_returns.
  - intros w' Hrun.
    pose proof (played_calls _ _ _ (run_played w w' Hwf Hrun)) as Hcalls.
    split; [done|]. by rewrite Hcalls, length_app, <- Hlen.
  - done.
  - apply NoDup_pairs.
  - apply elem_of_pairs.
  - intros i Hi%elem_of_pairs. lia.
  - intros i j Hij%elem_of_pairs Hji%elem_of_pairs. lia.
Qed.

Lemma std_matrix_complete : matrix_complete std_matrix.
Proof. intros [] []; eexists; reflexivity. Defined.

Lemma tft_vs_defector_wf rnd : world_wf (start tft_vs_defector_game rnd).
Proof. apply start_wf. repeat constructor. Defined.

Lemma run_plays_every_pair_witness :
  ∃ w', run (start tft_vs_defector_game (λ _, Cooperate)) = (w', Return ()) ∧
        calls w' = [(0, 1); (0, 1); (0, 1)].
Proof.
  destruct (run_plays_every_pair_once_per_round
              (start tft_vs_defector_game (λ _, Cooperate))
              (tft_vs_defector_wf _))
    as (Hret & Hcalls & _).
  destruct (Hret std_matrix_complete) as [w' Hrun].
  exists w'. split; [exact Hrun|]. exact (proj1 (Hcalls w' Hrun)).
Defined.

(** ** Simultaneity *)

Lemma choose_action_deterministic w i a o :
  agents (game w) !! i = Some a → deterministic (class_of a) →
  choose_action i o w = (w, (choose_action_of (class_of a) o a).2).
Proof.
  intros Hi Hdet. unfold choose_action.
  rewrite bind_run, (on_agent_gets _ _ _ _ Hi).
  pose proof (choose_action_of_pure (class_of a) o a) as Hpure.
  destruct (class_of a) eqn:Hc; try done;
    rewrite (on_agent_run _ _ _ _ Hi), Hpure; simpl;
    by rewrite list_insert_id, set_agents_id.
Qed.

(** C3.  For two deterministic agents and any world, a [choose_action] call
    leaves the world as it found it, so the action of each agent is the
    same whether it chooses before or after the other; the world after
    [play_round] is the same in both orders, and so is the result of the
    call as soon as one of the two agents has well-formed histories. *)
Theorem choose_action_order_is_irrelevant :
  ∀ w i j a1 a2,
    agents (game w) !! i = Some a1 → agents (game w) !! j = Some a2 →
    deterministic (class_of a1) → deterministic (class_of a2) →
    (choose_action i (name a2) w).1 = w ∧
    (choose_action j (name a1) w).1 = w ∧
    (choose_action j (name a1) (choose_action i (name a2) w).1).2
      = (choose_action j (name a1) w).2 ∧
    (choose_action i (name a2) (choose_action j (name a1) w).1).2
      = (choose_action i (name a2) w).2 ∧
    (play_round_swapped i j w).1 = (play_round i j w).1 ∧
    (agent_wf a1 ∨ agent_wf a2 → play_round_swapped i j w = play_round i j w).
Proof.
  intros w i j a1 a2 Hi Hj Hd1 Hd2.
  pose proof (choose_action_deterministic w i a1 (name a2) Hi Hd1) as E1.
  pose proof (choose_action_deterministic w j a2 (name a1) Hj Hd2) as E2.
  rewrite E1, E2. simpl. rewrite E1, E2. simpl. clear E1 E2.
  assert (agent_wf a1 → ∃ x, (choose_action_of (class_of a1) (name a2) a1).2
                               = Return x) as Hret1.
  { intros Hwf. rewrite (choose_action_of_wf _ _ _ Hwf). eauto. }
  assert (agent_wf a2 → ∃ x, (choose_action_of (class_of a2) (name a1) a2).2
                               = Return x) as Hret2.
  { intros Hwf. rewrite (choose_action_of_wf _ _ _ Hwf). eauto. }
  assert (agents (game (log_call (i, j) w)) !! i = Some a1) as Hi0 by done.
  assert (agents (game (log_call (i, j) w)) !! j = Some a2) as Hj0 by done.
  pose proof (choose_action_deterministic _ i a1 (name a2) Hi0 Hd1) as E1.
  pose proof (choose_action_deterministic _ j a2 (name a1) Hj0 Hd2) as E2.
  unfold play_round, play_round_swapped.
  rewrite !bind_run. unfold modify. cbv beta iota.
  rewrite !bind_run, (on_agent_gets _ _ _ _ Hi0), (on_agent_gets _ _ _ _ Hj0).
  rewrite !bind_run, E1, E2.
  destruct (choose_action_of (class_of a1) (name a2) a1).2 as [x1|e1];
    destruct (choose_action_of (class_of a2) (name a1) a2).2 as [x2|e2];
    rewrite ?bind_run, ?(on_agent_gets _ _ _ _ Hi0), ?(on_agent_gets _ _ _ _ Hj0);
    rewrite ?bind_run, ?E1, ?E2;
    (split_and!; [done..|]); try done.
  intros [[x ?]%Hret1|[x ?]%Hret2]; done.
Qed.

Lemma choose_action_order_witness :
  let w := start tft_vs_defector_game (λ _, Cooperate) in
  agents (game w) !! 0 = Some (new_agent TitForTatAgent "tft") ∧
  agents (game w) !! 1 = Some (new_agent DefectorAgent "d") ∧
  deterministic TitForTatAgent ∧ deterministic DefectorAgent ∧
  play_round_swapped 0 1 w = play_round 0 1 w.
Proof.
  intros w.
  assert (deterministic TitForTatAgent) as Hd1 by discriminate.
  assert (deterministic DefectorAgent) as Hd2 by discriminate.
  split; [reflexivity|]. split; [reflexivity|].
  split; [exact Hd1|]. split; [exact Hd2|].
  destruct (choose_action_order_is_irrelevant w 0 1
              (new_agent TitForTatAgent "tft") (new_agent DefectorAgent "d")
              eq_refl eq_refl Hd1 Hd2) as (_ & _ & _ & _ & _ & Heq).
  apply Heq. left. apply new_agent_wf.
Defined.

(** ** An incomplete payoff matrix *)

(** With the entry for (cooperate, defect) missing, the game is constructed
    all the same; the error is a [KeyError] raised by [run] in the first
    round, when both agents have already recorded the round in their
    histories and neither has been given a score. *)
Lemma incomplete_matrix_is_accepted :
  ¬ matrix_complete matrix_without_cd ∧
  PrisonersDilemma_init cooperator_vs_defector factory
    = Return cooperator_vs_defector_game ∧
  ∃ w, run (start cooperator_vs_defector_game (λ _, Cooperate))
         = (w, Raise (KeyError "defect")) ∧
       calls w = [(0, 1)] ∧
       two_agent_summary w = (Some ([Cooperate], 0%Z), Some ([Defect], 0%Z)).
Proof.
  split_and!.
  - intros H. by destruct (H Cooperate Defect) as [p Hp].
  - by vm_compute.
  - eexists. split; [by vm_compute|]. split; by vm_compute.
Qed.

(** C5, as the code has it.  [__init__] stores the payoff matrix without
    looking into it: the construction returns a game holding the configured
    matrix as soon as the three keys of the configuration are present and
    every agent type is registered.  A missing entry shows only in
    [play_round], as the [KeyError] of the lookup for the two actions just
    played, raised after both agents have recorded the round and before any
    score is updated; when the entry is present the call returns. *)
Theorem payoff_matrix_is_checked_only_by_lookup :
  (∀ cfg f l pm r,
     cfg_agents cfg = Some l → cfg_payoff_matrix cfg = Some pm →
     cfg_rounds cfg = Some r →
     (∀ c, c ∈ l → is_Some (agent_classes f !! cfg_type c)) →
     ∃ g, PrisonersDilemma_init cfg f = Return g ∧
          payoff_matrix g = pm ∧ rounds g = r ∧
          name <$> agents g = cfg_name <$> l) ∧
  (∀ w i j a1 a2,
     i ≠ j →
     agents (game w) !! i = Some a1 → agents (game w) !! j = Some a2 →
     agent_wf a1 → agent_wf a2 →
     let x1 := first_action a1 a2 w in
     let x2 := second_action a1 a2 w in
     let d := draws_after a1 a2 w in
     match payoff_lookup (payoff_matrix (game w)) x1 x2 with
     | Raise e =>
         play_round i j w =
           (round_world i j a1 a2 x1 x2 (score a1) (score a2) d w, Raise e) ∧
         (e = KeyError (action_key x1) ∨ e = KeyError (action_key x2))
     | Return p =>
         play_round i j w =
           (round_world i j a1 a2 x1 x2 (score a1 + p.1) (score a2 + p.2) d w,
            Return ())
     end).
Proof.
  split.
  - intros cfg f l pm r Hl Hpm Hr Hreg.
    assert (∃ ags, create_all f l = Return ags) as [ags Hags].
    { clear Hl. induction l as [|c l IH]; simpl; [eauto|].
      unfold create at 1.
      destruct (Hreg c) as [cls ->]; [by left|].
      destruct IH as [ags ->]; [|eauto].
      intros c' Hc'. apply Hreg. by right. }
    unfold PrisonersDilemma_init. rewrite Hl, Hags, Hpm, Hr.
    eexists. split; [done|]. simpl. split_and!; try done.
    by destruct (create_all_fresh _ _ _ Hags).
  - intros w i j a1 a2 Hij Hi Hj Hwf1 Hwf2. simpl.
    rewrite (play_round_run w i j a1 a2) by done. unfold round_outcome.
    unfold payoff_lookup.
    destruct (payoff_matrix (game w) !! _) as [row|]; [|by eauto].
    destruct (row !! _) as [p|]; by eauto.
Qed.

Lemma payoff_matrix_lookup_witness :
  (∃ g, PrisonersDilemma_init cooperator_vs_defector factory = Return g ∧
        payoff_matrix g = matrix_without_cd) ∧
  ∃ w, play_round 0 1 (start cooperator_vs_defector_game (λ _, Cooperate))
         = (w, Raise (KeyError "defect")).
Proof.
  destruct payoff_matrix_is_checked_only_by_lookup as [Hinit Hplay]. split.
  - destruct (Hinit cooperator_vs_defector factory _ _ _ eq_refl eq_refl eq_refl)
      as (g & Hg & Hpm & _).
    + intros c Hc.
      apply elem_of_cons in Hc as [->|Hc]; [by eexists|].
      apply elem_of_cons in Hc as [->|Hc]; [by eexists|].
      by apply elem_of_nil in Hc.
    + exists g. split; [exact Hg|exact Hpm].
  - pose proof (Hplay (start cooperator_vs_defector_game (λ _, Cooperate)) 0 1
                  (new_agent CooperatorAgent "c") (new_agent DefectorAgent "d")
                  ltac:(lia) eq_refl eq_refl
                  (new_agent_wf _ _) (new_agent_wf _ _)) as H.
    simpl in H. destruct H as [H _]. eexists. exact H.
Defined.

(** ** Scores recomputed from the histories *)

Section score_lemmas.
Context (pm : gmap string (gmap string (Z * Z))).
Implicit Types (a : Agent) (o : string) (x y : Action).

Lemma payoff_sum_snoc l x y :
  payoff_sum pm (l ++ [(x, y)]) = (payoff_sum pm l + own_payoff pm x y)%Z.
Proof.
  unfold payoff_sum. induction l as [|xy l IH]; simpl; [lia|].
  rewrite IH. lia.
Qed.

Lemma map_fold_sum_ext {V} (f g : string → V → Z) (m : gmap string V) :
  (∀ k v, m !! k = Some v → f k v = g k v) →
  map_fold (λ k v acc, (f k v + acc)%Z) 0%Z m
  = map_fold (λ k v acc, (g k v + acc)%Z) 0%Z m.
Proof.
  intros Hfg. rewrite !map_fold_foldr.
  assert (∀ kv, kv ∈ map_to_list m → f kv.1 kv.2 = g kv.1 kv.2) as Hl.
  { intros [k v] Hkv. apply Hfg. by apply elem_of_map_to_list. }
  induction (map_to_list m) as [|[k v] l IH]; [done|]. simpl.
  rewrite IH; [|intros kv Hkv; apply Hl; by right].
  f_equal. apply (Hl (k, v)). by left.
Qed.

Lemma map_fold_sum_insert {V} (f : string → V → Z) (m : gmap string V) k v :
  map_fold (λ k v acc, (f k v + acc)%Z) 0%Z (<[k := v]> m)
  = (f k v + map_fold (λ k v acc, (f k v + acc)%Z) 0%Z (delete k m))%Z.
Proof.
  rewrite <- insert_delete_eq.
  rewrite map_fold_insert_L; [done| |apply lookup_delete_eq].
  intros. lia.
Qed.

Lemma map_fold_sum_delete {V} (f : string → V → Z) (m : gmap string V) k :
  map_fold (λ k v acc, (f k v + acc)%Z) 0%Z m
  = (from_option (f k) 0%Z (m !! k)
     + map_fold (λ k v acc, (f k v + acc)%Z) 0%Z (delete k m))%Z.
Proof.
  destruct (m !! k) as [v|] eqn:Hk; simpl.
  - rewrite (map_fold_delete_L _ _ k v m); [done| |done]. intros. lia.
  - by rewrite delete_id.
Qed.

(** Recording one more round adds the payoff of that round to the
    recomputed score. *)
Lemma recomputed_record_round a o x y z :
  agent_wf a →
  recomputed_score pm (set_score z (record_round o x y a))
  = (recomputed_score pm a + own_payoff pm x y)%Z.
Proof.
  intros Hwf. unfold recomputed_score. simpl.
  rewrite map_fold_sum_insert, lookup_insert_eq. simpl.
  rewrite (map_fold_sum_delete _ (history a) o).
  rewrite (map_fold_sum_ext _
             (λ o' h, payoff_sum pm
                        (zip h (default [] (oponent_history a !! o'))))
             (delete o (history a))).
  2: { intros k v Hk. apply lookup_delete_Some in Hk as [Hne _].
       by rewrite lookup_insert_ne. }
  specialize (Hwf o).
  destruct (history a !! o) as [h|], (oponent_history a !! o) as [oh|];
    try done; simpl.
  - rewrite zip_with_app by lia. simpl.
    rewrite (payoff_sum_snoc (zip h oh) x y). lia.
  - unfold own_payoff. lia.
Qed.

Lemma payoffs_defined_record_round a o x y z p :
  agent_wf a → payoffs_defined pm a → payoff_lookup pm x y = Return p →
  payoffs_defined pm (set_score z (record_round o x y a)).
Proof.
  intros Hwf Hdef Hp o' h' oh' k x' y'. simpl.
  destruct (decide (o = o')) as [<-|Hne].
  - rewrite !lookup_insert_eq. intros [= <-] [= <-].
    specialize (Hwf o). specialize (Hdef o).
    destruct (history a !! o) as [h|], (oponent_history a !! o) as [oh|];
      try done; simpl.
    + destruct Hwf as [Hlen _].
      destruct (decide (k < length h)) as [Hk|Hk].
      * rewrite !lookup_app_l by lia. eauto.
      * rewrite !lookup_app_r by lia. rewrite Hlen.
        destruct (k - length oh) as [|k']; simpl; [|done].
        intros [= <-] [= <-]. eauto.
    + destruct k as [|k]; simpl; [|done]. intros [= <-] [= <-]. eauto.
  - rewrite !lookup_insert_ne by done. apply Hdef.
Qed.

Lemma score_ok_record_round a o x y p :
  agent_wf a → score_ok pm a → payoff_lookup pm x y = Return p →
  score_ok pm (set_score (score a + p.1) (record_round o x y a)).
Proof.
  intros Hwf [Hsc Hdef] Hp. split.
  - rewrite recomputed_record_round by done. simpl.
    unfold own_payoff. rewrite Hp. lia.
  - by eapply payoffs_defined_record_round.
Qed.

Lemma fresh_score_ok a : fresh a → score_ok pm a.
Proof.
  intros (Hh & Hoh & Hsc). split.
  - unfold recomputed_score. by rewrite Hsc, Hh, map_fold_empty.
  - intros o h oh k x y. by rewrite Hh, lookup_empty.
Qed.
End score_lemmas.

Lemma played_score_ok l w w' :
  played l w w' →
  matrix_symmetric (payoff_matrix (game w)) → world_wf w →
  (∀ i a, agents (game w) !! i = Some a → score_ok (payoff_matrix (game w)) a) →
  ∀ i a, agents (game w') !! i = Some a → score_ok (payoff_matrix (game w)) a.
Proof.
  induction 1 as [|l w w' i j a1 a2 p Hpl IH Hij Hi Hj Hp];
    intros Hsym Hwf Hok; [done|].
  pose proof (played_wf _ _ _ Hpl Hwf) as Hwf'.
  destruct (played_setup _ _ _ Hpl) as (_ & _ & Hpm & _). rewrite Hpm in Hp.
  intros k a. rewrite round_world_lookup by done.
  destruct (decide (k = j)) as [->|Hkj].
  { intros [= <-].
    apply (score_ok_record_round _ _ _ _ _ (p.2, p.1)); eauto. }
  destruct (decide (k = i)) as [->|Hki].
  { intros [= <-]. apply (score_ok_record_round _ _ _ _ _ p); eauto. }
  eauto.
Qed.

(** C2.  For a game constructed from a configuration, with a payoff matrix
    that is symmetric under exchanging the players: if the matrix is
    complete [run] returns; and whenever [run] returns, the score of every
    agent is the sum, over the opponents in its history and the rounds
    recorded against each, of the payoff the matrix gives for its own
    action against the opponent's (every such entry being present, and the
    two histories having the same keys and lengths). *)
Theorem score_is_sum_of_recorded_payoffs :
  ∀ cfg f g rnd,
    PrisonersDilemma_init cfg f = Return g →
    matrix_symmetric (payoff_matrix g) →
    (matrix_complete (payoff_matrix g) →
       ∃ w, run (start g rnd) = (w, Return ())) ∧
    ∀ w, run (start g rnd) = (w, Return ()) →
         ∀ a, a ∈ agents (game w) →
              score a = recomputed_score (payoff_matrix g) a ∧
              payoffs_defined (payoff_matrix g) a ∧ agent_wf a.
Proof.
  intros cfg f g rnd Hinit Hsym.
  destruct (init_fresh _ _ _ Hinit) as (Hfr & _).
  pose proof (start_wf g rnd Hfr) as Hwf. split.
  - intros Hpm. by apply run_returns.
  - intros w Hrun a [i Hi]%list_elem_of_lookup.
    pose proof (run_played _ _ Hwf Hrun) as Hpl.
    destruct (played_score_ok _ _ _ Hpl Hsym Hwf) with (i := i) (a := a)
      as [Hsc Hdef]; [|done|].
    { intros k b Hk. apply fresh_score_ok.
      by apply (proj1 (Forall_lookup _ _) Hfr k b). }
    split_and!; [done..|]. by apply (played_wf _ _ _ Hpl Hwf i).
Qed.

Lemma std_matrix_symmetric : matrix_symmetric std_matrix.
Proof. intros [] [] p [= <-]; reflexivity. Defined.

Lemma score_is_sum_witness :
  PrisonersDilemma_init tft_vs_defector factory = Return tft_vs_defector_game ∧
  matrix_symmetric std_matrix ∧
  ∃ w, run (start tft_vs_defector_game (λ _, Cooperate)) = (w, Return ()) ∧
       ∀ a, a ∈ agents (game w) → score a = recomputed_score std_matrix a.
Proof.
  split; [reflexivity|]. split; [exact std_matrix_symmetric|].
  destruct (score_is_sum_of_recorded_payoffs tft_vs_defector factory
              tft_vs_defector_game (λ _, Cooperate) eq_refl std_matrix_symmetric)
    as [Hret Hsum].
  destruct (Hret std_matrix_complete) as [w Hw].
  exists w. split; [exact Hw|].
  intros a Ha. destruct (Hsum w Hw a Ha) as (Hsc & _). exact Hsc.
Defined.

(** Without the symmetry the recomputation differs from the score of the
    agent that comes second in a pair: that agent is paid the second
    component of the entry for (opponent's action, own action). *)
Example asymmetric_matrix_recomputation :
  ∃ w, run (start {| agents := [ new_agent CooperatorAgent "c";
                                 new_agent DefectorAgent "d" ];
                     payoff_matrix := asymmetric_matrix; rounds := 1 |}
              (λ _, Cooperate)) = (w, Return ()) ∧
       score <$> agents (game w) = [0; 5]%Z ∧
       recomputed_score asymmetric_matrix <$> agents (game w) = [0; 9]%Z.
Proof. eexists. split; [by vm_compute|]. split; by vm_compute. Qed.

(** ** Running twice *)

Lemma rounds_with_snoc nms i o l p :
  rounds_with nms i o (l ++ [p]) = rounds_with nms i o l + met nms i o p.
Proof.
  unfold rounds_with. induction l as [|q l IH]; simpl; [lia|]. rewrite IH. lia.
Qed.

Lemma recorded_record_round a o' x y z o :
  recorded (history (set_score z (record_round o' x y a))) o
    = recorded (history a) o ++ (if decide (o' = o) then [x] else []) ∧
  recorded (oponent_history (set_score z (record_round o' x y a))) o
    = recorded (oponent_history a) o ++ (if decide (o' = o) then [y] else []).
Proof.
  unfold recorded. simpl. destruct (decide (o' = o)) as [->|Hne].
  - by rewrite !lookup_insert_eq.
  - by rewrite !lookup_insert_ne, !app_nil_r.
Qed.

(** What a sequence of calls that returned added to the histories: as many
    actions as rounds, at the end of the lists. *)
Lemma played_histories l w w' :
  played l w w' →
  ∀ i a a' o,
    agents (game w) !! i = Some a → agents (game w') !! i = Some a' →
    ∃ ext oext,
      length ext = rounds_with (name <$> agents (game w)) i o l ∧
      length oext = rounds_with (name <$> agents (game w)) i o l ∧
      recorded (history a') o = recorded (history a) o ++ ext ∧
      recorded (oponent_history a') o = recorded (oponent_history a) o ++ oext.
Proof.
  induction 1 as [|l w w' i j a1 a2 p Hpl IH Hij Hi Hj Hp]; intros k a a'' o Ha Ha''.
  { simplify_eq. exists [], []. by rewrite !app_nil_r. }
  pose proof (played_setup _ _ _ Hpl) as Hset.
  destruct (lookup_lt_is_Some_2 (agents (game w')) k) as [a' Ha'].
  { rewrite (same_setup_length _ _ Hset). by eapply lookup_lt_Some. }
  destruct (IH k a a' o Ha Ha') as (ext & oext & Hlen & Holen & Hh & Hoh).
  destruct Hset as (Hnames & _).
  assert ((name <$> agents (game w)) !! i = Some (name a1)) as Hni
    by (by rewrite <- Hnames, list_lookup_fmap, Hi).
  assert ((name <$> agents (game w)) !! j = Some (name a2)) as Hnj
    by (by rewrite <- Hnames, list_lookup_fmap, Hj).
  rewrite round_world_lookup in Ha'' by done.
  rewrite rounds_with_snoc. unfold met. simpl. rewrite Hni, Hnj.
  destruct (decide (k = j)) as [->|Hkj]; [|destruct (decide (k = i)) as [->|Hki]].
  - injection Ha'' as <-. assert (a' = a2) as -> by congruence.
    destruct (recorded_record_round a2 (name a1)
                (second_action a1 a2 w') (first_action a1 a2 w')
                (score a2 + p.2)%Z o) as [-> ->].
    rewrite Hh, Hoh, <- !app_assoc.
    eexists _, _. split_and!; [| |done..]; rewrite length_app, ?Hlen, ?Holen;
      f_equal; destruct (decide (name a1 = o)) as [->|Hne];
      (rewrite decide_True by (intuition congruence)) || (rewrite decide_False by (intuition congruence));
      done.
  - injection Ha'' as <-. assert (a' = a1) as -> by congruence.
    destruct (recorded_record_round a1 (name a2)
                (first_action a1 a2 w') (second_action a1 a2 w')
                (score a1 + p.1)%Z o) as [-> ->].
    rewrite Hh, Hoh, <- !app_assoc.
    eexists _, _. split_and!; [| |done..]; rewrite length_app, ?Hlen, ?Holen;
      f_equal; destruct (decide (name a2 = o)) as [->|Hne];
      (rewrite decide_True by (intuition congruence)) || (rewrite decide_False by (intuition congruence));
      done.
  - assert (a'' = a') as -> by congruence. exists ext, oext.
    rewrite decide_False by (intuition congruence). by rewrite !Nat.add_0_r.
Qed.

Lemma total_gain_snoc pm cls i l p :
  total_gain pm cls i (l ++ [p])
  = (total_gain pm cls i l + gain pm cls i p)%Z.
Proof.
  unfold total_gain. induction l as [|q l IH]; simpl; [lia|]. rewrite IH. lia.
Qed.

Lemma pick_history_free w a o :
  history_free (class_of a) → pick w a o = fixed_action (class_of a).
Proof. unfold pick, chosen. by intros [-> | ->]. Qed.

Lemma played_scores_history_free l w w' :
  played l w w' →
  Forall history_free (class_of <$> agents (game w)) →
  ∀ k a a',
    agents (game w) !! k = Some a → agents (game w') !! k = Some a' →
    score a' = (score a + total_gain (payoff_matrix (game w))
                            (class_of <$> agents (game w)) k l)%Z.
Proof.
  induction 1 as [|l w w' i j a1 a2 p Hpl IH Hij Hi Hj Hp];
    intros Hfree k a a'' Ha Ha''.
  { simplify_eq. simpl. lia. }
  pose proof (played_setup _ _ _ Hpl) as Hset.
  destruct (lookup_lt_is_Some_2 (agents (game w')) k) as [a' Ha'].
  { rewrite (same_setup_length _ _ Hset). by eapply lookup_lt_Some. }
  pose proof (IH Hfree k a a' Ha Ha') as Hsc.
  destruct Hset as (_ & Hcls & Hpm & _).
  assert ((class_of <$> agents (game w)) !! i = Some (class_of a1)) as Hci
    by (by rewrite <- Hcls, list_lookup_fmap, Hi).
  assert ((class_of <$> agents (game w)) !! j = Some (class_of a2)) as Hcj
    by (by rewrite <- Hcls, list_lookup_fmap, Hj).
  assert (history_free (class_of a1)) as Hf1
    by (by apply (proj1 (Forall_lookup _ _) Hfree i)).
  assert (history_free (class_of a2)) as Hf2
    by (by apply (proj1 (Forall_lookup _ _) Hfree j)).
  unfold first_action, second_action in Hp.
  rewrite !pick_history_free, Hpm in Hp by done.
  rewrite round_world_lookup in Ha'' by done.
  rewrite total_gain_snoc. unfold gain. simpl. rewrite Hci, Hcj, Hp.
  destruct (decide (k = j)) as [->|Hkj]; [|destruct (decide (k = i)) as [->|Hki]].
  - injection Ha'' as <-. assert (a' = a2) as -> by congruence. simpl. lia.
  - injection Ha'' as <-. assert (a' = a1) as -> by congruence. simpl. lia.
  - assert (a'' = a') as -> by congruence. lia.
Qed.

(** The scores after one and after two runs of TitForTat against Defector:
    the second run starts from the histories of the first, TitForTat
    defects from its first round on, and no score is doubled. *)
Lemma second_run_does_not_double_scores :
  ∃ w1 w2,
    run (start tft_vs_defector_game (λ _, Cooperate)) = (w1, Return ()) ∧
    run w1 = (w2, Return ()) ∧
    score <$> agents (game w1) = [2; 7]%Z ∧
    score <$> agents (game w2) = [5; 10]%Z ∧
    ¬ (∀ i a1 a2, agents (game w1) !! i = Some a1 →
                  agents (game w2) !! i = Some a2 →
                  score a2 = (2 * score a1)%Z).
Proof.
  eexists _, _. split; [by vm_compute|]. split; [by vm_compute|].
  split; [by vm_compute|]. split; [by vm_compute|].
  intros H. by specialize (H 0 _ _ eq_refl eq_refl).
Qed.

(** C8, as the code has it.  For a game constructed from a configuration
    with a complete payoff matrix, [run] returns both times; after the
    second run every history list is the list after the first run followed
    by as many new actions, under the same keys; and the scores are
    doubled when every agent is a Cooperator or a Defector. *)
Theorem second_run_doubles_histories :
  ∀ cfg f g rnd,
    PrisonersDilemma_init cfg f = Return g →
    matrix_complete (payoff_matrix g) →
    ∃ w1 w2,
      run (start g rnd) = (w1, Return ()) ∧ run w1 = (w2, Return ()) ∧
      ∀ i a1 a2,
        agents (game w1) !! i = Some a1 → agents (game w2) !! i = Some a2 →
        (∀ o h, history a1 !! o = Some h →
           ∃ ext, history a2 !! o = Some (h ++ ext) ∧ length ext = length h) ∧
        (∀ o oh, oponent_history a1 !! o = Some oh →
           ∃ ext, oponent_history a2 !! o = Some (oh ++ ext) ∧
                  length ext = length oh) ∧
        dom (history a2) = dom (history a1) ∧
        dom (oponent_history a2) = dom (oponent_history a1) ∧
        (Forall history_free (class_of <$> agents g) →
           score a2 = (2 * score a1)%Z).
Proof.
  intros cfg f g rnd Hinit Hpm.
  destruct (init_fresh _ _ _ Hinit) as (Hfr & _).
  pose proof (start_wf g rnd Hfr) as Hwf0.
  destruct (run_returns (start g rnd) Hwf0 Hpm) as [w1 Hrun1].
  pose proof (run_played _ _ Hwf0 Hrun1) as Hpl1.
  pose proof (played_wf _ _ _ Hpl1 Hwf0) as Hwf1.
  pose proof (played_setup _ _ _ Hpl1) as Hset1.
  pose proof (same_setup_length _ _ Hset1) as Hlen1.
  destruct Hset1 as (Hnm1 & Hcls1 & Hpm1 & Hr1 & _).
  destruct (run_returns w1 Hwf1) as [w2 Hrun2]; [by rewrite Hpm1|].
  pose proof (run_played _ _ Hwf1 Hrun2) as Hpl2.
  pose proof (played_wf _ _ _ Hpl2 Hwf1) as Hwf2.
  rewrite Hr1, Hlen1 in Hpl2. simpl in Hpl1, Hpl2, Hnm1, Hcls1, Hpm1, Hlen1.
  exists w1, w2. split; [done|]. split; [done|].
  intros i a1 a2 Hi1 Hi2.
  destruct (lookup_lt_is_Some_2 (agents g) i) as [a0 Hi0].
  { rewrite <- Hlen1. by eapply lookup_lt_Some. }
  destruct (proj1 (Forall_lookup _ _) Hfr i a0 Hi0) as (Hh0 & Hoh0 & Hsc0).
  assert (∀ o,
    ∃ ext oext, length ext = length (recorded (history a1) o) ∧
                length oext = length (recorded (oponent_history a1) o) ∧
                recorded (history a2) o = recorded (history a1) o ++ ext ∧
                recorded (oponent_history a2) o
                  = recorded (oponent_history a1) o ++ oext) as Hext.
  { intros o.
    destruct (played_histories _ _ _ Hpl1 i a0 a1 o Hi0 Hi1)
      as (e1 & oe1 & Hl1 & Hol1 & He1 & Hoe1).
    destruct (played_histories _ _ _ Hpl2 i a1 a2 o Hi1 Hi2)
      as (e2 & oe2 & Hl2 & Hol2 & He2 & Hoe2).
    unfold recorded in He1, Hoe1. rewrite Hh0, lookup_empty in He1.
    rewrite Hoh0, lookup_empty in Hoe1. simpl in He1, Hoe1.
    exists e2, oe2. rewrite Hnm1 in Hl2, Hol2. simpl in Hl1, Hol1.
    unfold recorded at 1 2. rewrite He1, Hoe1. split_and!; try done; congruence. }
  pose proof (Hwf1 i a1 Hi1) as Hwa1. pose proof (Hwf2 i a2 Hi2) as Hwa2.
  assert (∀ o, history a1 !! o = None → history a2 !! o = None) as Hnone.
  { intros o Ho. destruct (Hext o) as (ext & _ & Hlen & _ & Hrec & _).
    unfold recorded in Hlen, Hrec. rewrite Ho in Hlen, Hrec. simpl in *.
    destruct ext; [|done]. specialize (Hwa2 o).
    destruct (history a2 !! o) as [h2|]; [|done]. simpl in Hrec. subst h2.
    destruct (oponent_history a2 !! o); simpl in Hwa2; [lia|done]. }
  assert (∀ o h, history a1 !! o = Some h →
            ∃ ext, history a2 !! o = Some (h ++ ext) ∧ length ext = length h)
    as Hsome.
  { intros o h Ho. destruct (Hext o) as (ext & _ & Hlen & _ & Hrec & _).
    unfold recorded in Hlen, Hrec. rewrite Ho in Hlen, Hrec. simpl in *.
    exists ext. split; [|done]. specialize (Hwa1 o). rewrite Ho in Hwa1.
    destruct (history a2 !! o) as [h2|]; simpl in Hrec; [by subst|].
    destruct h; [|done]. destruct (oponent_history a1 !! o); simpl in Hwa1;
      [lia|done]. }
  assert (∀ o, oponent_history a1 !! o = None → oponent_history a2 !! o = None)
    as Hnone'.
  { intros o Ho. specialize (Hnone o). specialize (Hwa1 o). specialize (Hwa2 o).
    rewrite Ho in Hwa1. destruct (history a1 !! o); [done|].
    rewrite Hnone in Hwa2 by done. by destruct (oponent_history a2 !! o). }
  assert (∀ o oh, oponent_history a1 !! o = Some oh →
            ∃ ext, oponent_history a2 !! o = Some (oh ++ ext) ∧
                   length ext = length oh) as Hsome'.
  { intros o oh Ho. destruct (Hext o) as (_ & ext & _ & Hlen & _ & Hrec).
    unfold recorded in Hlen, Hrec. rewrite Ho in Hlen, Hrec. simpl in *.
    exists ext. split; [|done]. specialize (Hwa1 o). rewrite Ho in Hwa1.
    destruct (oponent_history a2 !! o) as [h2|]; simpl in Hrec; [by subst|].
    destruct oh; [|done]. destruct (history a1 !! o); simpl in Hwa1;
      [lia|done]. }
  split_and!; [done|done|..].
  - apply set_eq. intros o. rewrite !elem_of_dom. split.
    + intros Hs. destruct (history a1 !! o) eqn:Ho; [done|].
      rewrite (Hnone o Ho) in Hs. by destruct Hs.
    + intros [h Ho]. destruct (Hsome o h Ho) as (ext & -> & _). done.
  - apply set_eq. intros o. rewrite !elem_of_dom. split.
    + intros Hs. destruct (oponent_history a1 !! o) eqn:Ho; [done|].
      rewrite (Hnone' o Ho) in Hs. by destruct Hs.
    + intros [h Ho]. destruct (Hsome' o h Ho) as (ext & -> & _). done.
  - intros Hfree.
    pose proof (played_scores_history_free _ _ _ Hpl1 Hfree i a0 a1 Hi0 Hi1) as H1.
    assert (Forall history_free (class_of <$> agents (game w1))) as Hfree1
      by (by rewrite Hcls1).
    pose proof (played_scores_history_free _ _ _ Hpl2 Hfree1 i a1 a2 Hi1 Hi2) as H2.
    rewrite Hpm1, Hcls1 in H2. simpl in H1. lia.
Qed.

Lemma second_run_witness :
  PrisonersDilemma_init tft_vs_defector factory = Return tft_vs_defector_game ∧
  matrix_complete std_matrix ∧
  ∃ w1 w2,
    run (start tft_vs_defector_game (λ _, Cooperate)) = (w1, Return ()) ∧
    run w1 = (w2, Return ()) ∧
    ∀ i a1 a2 o h,
      agents (game w1) !! i = Some a1 → agents (game w2) !! i = Some a2 →
      history a1 !! o = Some h →
      ∃ ext, history a2 !! o = Some (h ++ ext) ∧ length ext = length h.
Proof.
  split; [reflexivity|]. split; [exact std_matrix_complete|].
  destruct (second_run_doubles_histories tft_vs_defector factory
              tft_vs_defector_game (λ _, Cooperate) eq_refl std_matrix_complete)
    as (w1 & w2 & Hrun1 & Hrun2 & Hall).
  exists w1, w2. split; [exact Hrun1|]. split; [exact Hrun2|].
  intros i a1 a2 o h Hi1 Hi2 Ho.
  destruct (Hall i a1 a2 Hi1 Hi2) as (Hh & _). exact (Hh o h Ho).
Defined.

(** ** Agents that share a name *)

(** The construction accepts two agents of the same name, and the histories
    of three agents of which two are called ["b"] no longer agree: the agent
    ["a"] holds one list for both, twice as long as the list that each of
    them holds for ["a"]. *)
Example shared_names_merge_histories :
  let g := {| agents := [ new_agent CooperatorAgent "a";
                          new_agent CooperatorAgent "b";
                          new_agent DefectorAgent "b" ];
              payoff_matrix := std_matrix; rounds := 1 |} in
  PrisonersDilemma_init
    {| cfg_agents := Some [ mkAgentConfig "Cooperator" "a";
                            mkAgentConfig "Cooperator" "b";
                            mkAgentConfig "Defector" "b" ];
       cfg_payoff_matrix := Some std_matrix; cfg_rounds := Some 1 |} factory
    = Return g ∧
  ∃ w, run (start g (λ _, Cooperate)) = (w, Return ()) ∧
       history <$> agents (game w) =
         [ {[ "b" := [Cooperate; Cooperate] ]};
           {[ "a" := [Cooperate]; "b" := [Cooperate] ]};
           {[ "a" := [Defect]; "b" := [Defect] ]} ] ∧
       ¬ histories_consistent w.
Proof.
  intros g. split; [by vm_compute|].
  eexists. split; [by vm_compute|]. split; [by vm_compute|].
  intros H.
  destruct (H 0 1 _ _ _ ltac:(lia) eq_refl eq_refl eq_refl)
    as (oh & h' & oh' & _ & Hh' & _ & Hlen & Hlen' & _).
  vm_compute in Hh'. injection Hh' as <-. simpl in Hlen, Hlen'. lia.
Qed.


(** * Further properties of the code *)

(** ** The factory *)

(** X1.  After [register(name)(cls)], [create(name, arg)] returns a new
    agent of class [cls]; the other names create what they created before;
    and registering a name again replaces the class registered first. *)
Theorem register_then_create :
  ∀ (f : AgentFactory) (nm : string) (c : AgentClass),
    (∀ arg, create (register nm c f) nm arg = Return (new_agent c arg)) ∧
    (∀ nm' arg, nm' ≠ nm →
       create (register nm c f) nm' arg = create f nm' arg) ∧
    (∀ c', register nm c (register nm c' f) = register nm c f).
Proof.
  intros f nm c. unfold create, register. simpl. split_and!.
  - intros arg. by rewrite lookup_insert_eq.
  - intros nm' arg Hne. by rewrite lookup_insert_ne.
  - intros c'. by rewrite insert_insert_eq.
Qed.

Lemma register_then_create_witness :
  "TitForTat" ≠ "Pavlov" ∧
  create (register "Pavlov" GrudgerAgent factory) "TitForTat" "t"
    = Return (new_agent TitForTatAgent "t").
Proof.
  assert ("TitForTat" ≠ "Pavlov") as Hne by discriminate.
  split; [exact Hne|].
  destruct (register_then_create factory "Pavlov" GrudgerAgent) as (_ & H & _).
  rewrite (H "TitForTat" "t" Hne). reflexivity.
Defined.

(** X2.  The factory of agent.py creates an agent exactly for the six
    registered names, each with its class; the agent it creates has the
    requested name, empty histories, score 0 and the label and description
    of its class. *)
Theorem factory_creates_the_six_kinds :
  ∀ (kind nm : string),
    ((∃ a, create factory kind nm = Return a) ↔ kind ∈ registered_kinds.*1) ∧
    (∀ c, (kind, c) ∈ registered_kinds →
          create factory kind nm = Return (new_agent c nm)) ∧
    (∀ a, create factory kind nm = Return a →
          name a = nm ∧ history a = ∅ ∧ oponent_history a = ∅ ∧
          score a = 0%Z ∧ label a = class_label (class_of a) ∧
          description a = class_description (class_of a)).
Proof.
  intros kind nm.
  assert (agent_classes factory = list_to_map registered_kinds) as Hf
    by (by vm_compute).
  assert (NoDup registered_kinds.*1) as Hnd.
  { apply (bool_decide_unpack (NoDup registered_kinds.*1)). by vm_compute. }
  unfold create. rewrite Hf. split_and!.
  - destruct (list_to_map registered_kinds !! kind) as [c|] eqn:Hk.
    + split; [|by eauto]. intros _.
      apply elem_of_list_to_map_2 in Hk.
      apply list_elem_of_fmap. by exists (kind, c).
    + split; [by intros [a ?]|].
      intros Hin. by apply not_elem_of_list_to_map in Hk.
  - intros c Hc. by rewrite (elem_of_list_to_map_1 _ _ _ Hnd Hc).
  - intros a. destruct (list_to_map registered_kinds !! kind) as [c|]; [|done].
    by intros [= <-].
Qed.

Lemma factory_creates_witness :
  ("Grudger", GrudgerAgent) ∈ registered_kinds ∧
  create factory "Grudger" "g" = Return (new_agent GrudgerAgent "g").
Proof.
  assert (("Grudger", GrudgerAgent) ∈ registered_kinds) as Hin.
  { do 3 (apply elem_of_cons; right). apply elem_of_cons. by left. }
  split; [exact Hin|].
  destruct (factory_creates_the_six_kinds "Grudger" "g") as (_ & H & _).
  exact (H GrudgerAgent Hin).
Defined.

(** ** Construction of the game *)

Lemma create_all_configured f l ags :
  create_all f l = Return ags →
  Some <$> ags = configured_agents f l ∧
  ∀ c, c ∈ l → is_Some (agent_classes f !! cfg_type c).
Proof.
  revert ags. induction l as [|c l IH]; intros ags; simpl.
  - intros [= <-]. split; [done|]. by intros c Hc%elem_of_nil.
  - unfold create. destruct (agent_classes f !! cfg_type c) as [cls|] eqn:Hc;
      [|done].
    destruct (create_all f l) as [ags'|]; [|done]. intros [= <-].
    destruct (IH ags' eq_refl) as [Hags Hreg]. split.
    + unfold configured_agents in *. rewrite !fmap_cons. simpl.
      rewrite ?Hc. simpl. by f_equal.
    + intros c' [->|Hc']%elem_of_cons; [by rewrite Hc|by apply Hreg].
Qed.

Lemma create_all_returns f l :
  (∀ c, c ∈ l → is_Some (agent_classes f !! cfg_type c)) →
  ∃ ags, create_all f l = Return ags.
Proof.
  induction l as [|c l IH]; intros Hreg; simpl; [eauto|].
  unfold create at 1. destruct (Hreg c) as [cls ->]; [by left|].
  destruct IH as [ags ->]; [|eauto]. intros c' Hc'. apply Hreg. by right.
Qed.

Lemma create_all_raises f l e :
  create_all f l = Raise e → ∃ msg, e = ValueError msg.
Proof.
  induction l as [|c l IH]; simpl; [done|]. unfold create at 1.
  destruct (agent_classes f !! cfg_type c); [|intros [= <-]; eauto].
  destruct (create_all f l); [done|]. intros [= <-]. by apply IH.
Qed.

(** X3.  [__init__] returns a game exactly when the configuration has its
    three keys and every agent type is registered; the game then holds, in
    the order of the configuration, one new agent per entry, of the class
    registered under the entry's type and with the entry's name, and the
    configured matrix and number of rounds.  Otherwise the first error
    wins: a missing ['agents'] before anything else, an unregistered type
    before a missing ['payoff_matrix'], and that before a missing
    ['rounds']. *)
Theorem construction_returns_iff_configuration_is_usable :
  ∀ (cfg : Config) (f : AgentFactory),
    ((∃ g, PrisonersDilemma_init cfg f = Return g) ↔
       ∃ l pm r, cfg_agents cfg = Some l ∧ cfg_payoff_matrix cfg = Some pm ∧
                 cfg_rounds cfg = Some r ∧
                 ∀ c, c ∈ l → is_Some (agent_classes f !! cfg_type c)) ∧
    (∀ g, PrisonersDilemma_init cfg f = Return g →
          ∃ l, cfg_agents cfg = Some l ∧
               Some <$> agents g = configured_agents f l ∧
               length (agents g) = length l ∧
               cfg_payoff_matrix cfg = Some (payoff_matrix g) ∧
               cfg_rounds cfg = Some (rounds g)) ∧
    (cfg_agents cfg = None →
       PrisonersDilemma_init cfg f = Raise (KeyError "agents")) ∧
    (∀ l c, cfg_agents cfg = Some l → c ∈ l →
            agent_classes f !! cfg_type c = None →
            ∃ msg, PrisonersDilemma_init cfg f = Raise (ValueError msg)) ∧
    (∀ l, cfg_agents cfg = Some l →
          (∀ c, c ∈ l → is_Some (agent_classes f !! cfg_type c)) →
          cfg_payoff_matrix cfg = None →
          PrisonersDilemma_init cfg f = Raise (KeyError "payoff_matrix")) ∧
    (∀ l pm, cfg_agents cfg = Some l →
             (∀ c, c ∈ l → is_Some (agent_classes f !! cfg_type c)) →
             cfg_payoff_matrix cfg = Some pm → cfg_rounds cfg = None →
             PrisonersDilemma_init cfg f = Raise (KeyError "rounds")).
Proof.
  intros cfg f. unfold PrisonersDilemma_init. split_and!.
  - split.
    + intros [g Hg]. destruct (cfg_agents cfg) as [l|]; [|done].
      destruct (create_all f l) as [ags|] eqn:Hags; [|done].
      destruct (cfg_payoff_matrix cfg) as [pm|]; [|done].
      destruct (cfg_rounds cfg) as [r|]; [|done].
      exists l, pm, r. split_and!; try done.
      by destruct (create_all_configured _ _ _ Hags).
    + intros (l & pm & r & -> & -> & -> & Hreg).
      destruct (create_all_returns f l Hreg) as [ags ->]. eauto.
  - intros g. destruct (cfg_agents cfg) as [l|]; [|done].
    destruct (create_all f l) as [ags|] eqn:Hags; [|done].
    destruct (cfg_payoff_matrix cfg) as [pm|]; [|done].
    destruct (cfg_rounds cfg) as [r|]; [|done]. intros [= <-]. simpl.
    destruct (create_all_configured _ _ _ Hags) as [Hconf _].
    exists l. split_and!; try done.
    apply (f_equal length) in Hconf. unfold configured_agents in Hconf.
    by rewrite !length_fmap in Hconf.
  - by intros ->.
  - intros l c -> Hc Hnone.
    destruct (create_all f l) as [ags|e] eqn:Hags.
    + destruct (create_all_configured _ _ _ Hags) as [_ Hreg].
      destruct (Hreg c Hc) as [cls Hcls]. congruence.
    + destruct (create_all_raises _ _ _ Hags) as [msg ->]. eauto.
  - intros l -> Hreg ->. by destruct (create_all_returns f l Hreg) as [ags ->].
  - intros l pm -> Hreg -> ->.
    by destruct (create_all_returns f l Hreg) as [ags ->].
Qed.

Lemma construction_witness :
  cfg_agents cfg_unregistered
    = Some [ mkAgentConfig "Cooperator" "c"; mkAgentConfig "Pavlov" "p" ] ∧
  agent_classes factory !! "Pavlov" = None ∧
  cfg_payoff_matrix cfg_unregistered = None ∧
  ∃ msg, PrisonersDilemma_init cfg_unregistered factory = Raise (ValueError msg).
Proof.
  split; [reflexivity|]. split; [reflexivity|]. split; [reflexivity|].
  destruct (construction_returns_iff_configuration_is_usable
              cfg_unregistered factory) as (_ & _ & _ & H & _).
  apply (H _ (mkAgentConfig "Pavlov" "p") eq_refl); [|reflexivity].
  apply elem_of_cons. right. apply elem_of_cons. by left.
Defined.

(** ** [update_history] in any state *)

(** X4.  [update_history] in whatever state the two dictionaries are.  For
    an opponent that is not a key of [history], both dictionaries get a
    one-element list under its name, and a list that [oponent_history]
    held under that name is discarded.  For an opponent that is a key of
    both, the two actions are appended.  For an opponent that is a key of
    [history] only, the own action is appended and then a [KeyError] is
    raised.  No other key, and no other attribute, is touched. *)
Theorem update_history_in_any_state :
  ∀ (a : Agent) (o : string) (x y : Action),
    (history a !! o = None →
       update_history o x y a
       = (set_oponent_history (<[o := [y]]> (oponent_history a))
            (set_history (<[o := [x]]> (history a)) a), Return ())) ∧
    (∀ h oh, history a !! o = Some h → oponent_history a !! o = Some oh →
       update_history o x y a
       = (set_oponent_history (<[o := oh ++ [y]]> (oponent_history a))
            (set_history (<[o := h ++ [x]]> (history a)) a), Return ())) ∧
    (∀ h, history a !! o = Some h → oponent_history a !! o = None →
       update_history o x y a
       = (set_history (<[o := h ++ [x]]> (history a)) a, Raise (KeyError o))) ∧
    (∀ o', o' ≠ o →
       history (update_history o x y a).1 !! o' = history a !! o' ∧
       oponent_history (update_history o x y a).1 !! o'
         = oponent_history a !! o') ∧
    score (update_history o x y a).1 = score a ∧
    name (update_history o x y a).1 = name a ∧
    class_of (update_history o x y a).1 = class_of a.
Proof.
  intros a o x y.
  assert (history a !! o = None →
            update_history o x y a
            = (set_oponent_history (<[o := [y]]> (oponent_history a))
                 (set_history (<[o := [x]]> (history a)) a), Return ())) as H1.
  { intros Hh. unfold update_history. st_unfold. simpl.
    rewrite decide_True by done. simpl.
    repeat (rewrite lookup_insert_eq; simpl). by rewrite !insert_insert_eq. }
  assert (∀ h oh, history a !! o = Some h → oponent_history a !! o = Some oh →
            update_history o x y a
            = (set_oponent_history (<[o := oh ++ [y]]> (oponent_history a))
                 (set_history (<[o := h ++ [x]]> (history a)) a), Return ()))
    as H2.
  { intros h oh Hh Hoh. unfold update_history. st_unfold. simpl.
    rewrite decide_False by congruence. simpl. by rewrite Hh, Hoh. }
  assert (∀ h, history a !! o = Some h → oponent_history a !! o = None →
            update_history o x y a
            = (set_history (<[o := h ++ [x]]> (history a)) a,
               Raise (KeyError o))) as H3.
  { intros h Hh Hoh. unfold update_history. st_unfold. simpl.
    rewrite decide_False by congruence. simpl. by rewrite Hh, Hoh. }
  split_and!; [done..| | | |].
  - intros o' Hne.
    destruct (history a !! o) as [h|] eqn:Hh;
      [destruct (oponent_history a !! o) as [oh|] eqn:Hoh|].
    + rewrite (H2 h oh) by done. simpl. by rewrite !lookup_insert_ne.
    + rewrite (H3 h) by done. simpl. by rewrite !lookup_insert_ne.
    + rewrite H1 by done. simpl. by rewrite !lookup_insert_ne.
  - destruct (history a !! o) as [h|] eqn:Hh;
      [destruct (oponent_history a !! o) as [oh|] eqn:Hoh|].
    + by rewrite (H2 h oh).
    + by rewrite (H3 h).
    + by rewrite H1.
  - destruct (history a !! o) as [h|] eqn:Hh;
      [destruct (oponent_history a !! o) as [oh|] eqn:Hoh|].
    + by rewrite (H2 h oh).
    + by rewrite (H3 h).
    + by rewrite H1.
  - destruct (history a !! o) as [h|] eqn:Hh;
      [destruct (oponent_history a !! o) as [oh|] eqn:Hoh|].
    + by rewrite (H2 h oh).
    + by rewrite (H3 h).
    + by rewrite H1.
Qed.

Lemma update_history_witness :
  let a := set_history {[ "b" := [Cooperate] ]} (new_agent TitForTatAgent "a") in
  history a !! "b" = Some [Cooperate] ∧ oponent_history a !! "b" = None ∧
  update_history "b" Defect Defect a
  = (set_history {[ "b" := [Cooperate; Defect] ]} a, Raise (KeyError "b")).
Proof.
  intros a. split; [reflexivity|]. split; [reflexivity|].
  destruct (update_history_in_any_state a "b" Defect Defect) as (_ & _ & H & _).
  rewrite (H [Cooperate] eq_refl eq_refl). reflexivity.
Defined.

(** ** The strategies as functions of the opponent's actions *)

Lemma py_getitem_minus_1 {A} (l : list A) : py_getitem l (-1) = last l.
Proof.
  destruct l as [|x l] using rev_ind; [done|].
  by rewrite py_getitem_last, last_snoc.
Qed.

Lemma choose_action_of_strategy c o a :
  agent_wf a → deterministic c →
  choose_action_of c o a
  = (a, Return (strategy c (recorded (oponent_history a) o))).
Proof.
  intros Hwf Hdet. specialize (Hwf o). unfold recorded.
  destruct c; simpl; try done.
  - unfold TitForTatAgent_choose_action, dict_mem. st_unfold.
    destruct (history a !! o) as [h|] eqn:Hh;
      destruct (oponent_history a !! o) as [oh|] eqn:Hoh; try done; simpl.
    rewrite Hoh, py_getitem_minus_1.
    destruct (snoc_inv oh) as (l & z & ->); [lia|]. by rewrite last_snoc.
  - unfold TitForTwoTatsAgent_choose_action, dict_mem. st_unfold.
    destruct (history a !! o) as [h|] eqn:Hh;
      destruct (oponent_history a !! o) as [oh|] eqn:Hoh; try done; simpl.
    destruct (decide (2 ≤ length h)) as [H2|H2].
    + rewrite Hoh. destruct (snoc2_inv oh) as (l & z & z' & ->); [lia|].
      rewrite py_getitem_last_of2, rev_app_distr. simpl.
      destruct (decide (z' = Defect)) as [->|Hz']; simpl.
      * rewrite Hoh, py_getitem_last2.
        by destruct (decide (z = Defect)) as [->|Hz]; [|destruct z].
      * by destruct z'.
    + destruct oh as [|z [|z' oh]]; simpl in *; [lia| |lia]. by destruct z.
  - unfold GrudgerAgent_choose_action, dict_mem, list_mem. st_unfold.
    destruct (history a !! o) as [h|] eqn:Hh;
      destruct (oponent_history a !! o) as [oh|] eqn:Hoh; try done; simpl.
    rewrite Hoh. by case_bool_decide.
Qed.

(** X5.  On well-formed histories the [choose_action] of each of the five
    deterministic classes leaves the agent as it is and returns what the
    class plays against the actions recorded for that opponent: TitForTat
    the opponent's last action (cooperate when there is none), TitForTwoTats
    defect when the last two are defect, Grudger defect when some action is
    defect, Cooperator cooperate and Defector defect. *)
Theorem choose_action_follows_strategy :
  ∀ (a : Agent) (o : string),
    agent_wf a →
    let prev := recorded (oponent_history a) o in
    TitForTatAgent_choose_action o a
      = (a, Return (default Cooperate (last prev))) ∧
    TitForTwoTatsAgent_choose_action o a
      = (a, Return (match rev prev with
                    | Defect :: Defect :: _ => Defect
                    | _ => Cooperate
                    end)) ∧
    GrudgerAgent_choose_action o a
      = (a, Return (if bool_decide (Defect ∈ prev) then Defect else Cooperate)) ∧
    CooperatorAgent_choose_action o a = (a, Return Cooperate) ∧
    DefectorAgent_choose_action o a = (a, Return Defect) ∧
    (history a !! o = None → prev = []).
Proof.
  intros a o Hwf prev. split_and!.
  - by apply (choose_action_of_strategy TitForTatAgent o a Hwf).
  - by apply (choose_action_of_strategy TitForTwoTatsAgent o a Hwf).
  - by apply (choose_action_of_strategy GrudgerAgent o a Hwf).
  - done.
  - done.
  - intros Hh. specialize (Hwf o). rewrite Hh in Hwf. unfold prev, recorded.
    by destruct (oponent_history a !! o).
Qed.

Lemma choose_action_witness :
  agent_wf tf2t_example ∧
  TitForTatAgent_choose_action "b" tf2t_example = (tf2t_example, Return Defect) ∧
  GrudgerAgent_choose_action "b" tf2t_example = (tf2t_example, Return Defect).
Proof.
  assert (agent_wf tf2t_example) as Hwf
    by (do 2 apply record_round_wf; apply new_agent_wf).
  split; [exact Hwf|].
  destruct (choose_action_follows_strategy tf2t_example "b" Hwf)
    as (Htft & _ & Hg & _).
  split; [exact Htft|exact Hg].
Defined.

Lemma recorded_after_round a o' x y o :
  recorded (history (record_round o' x y a)) o
    = recorded (history a) o ++ (if decide (o' = o) then [x] else []) ∧
  recorded (oponent_history (record_round o' x y a)) o
    = recorded (oponent_history a) o ++ (if decide (o' = o) then [y] else []).
Proof. exact (recorded_record_round a o' x y 0 o). Qed.

Lemma update_all_wf l a (I : Agent → Prop) :
  agent_wf a → I a →
  (∀ a' o x y, agent_wf a' → I a' → I (record_round o x y a')) →
  ∃ a', update_all l a = (a', Return ()) ∧ agent_wf a' ∧ I a'.
Proof.
  intros Hwf Ha Hstep.
  destruct (for_each_steps (λ _ a', agent_wf a' ∧ I a')
              (λ c : string * Action * Action,
                 update_history c.1.1 c.1.2 c.2) l a)
    as (a' & Hrun & Hwf' & Ha'); [|done|by exists a'].
  intros done [[o x] y] rest a' _ [Hwf' Ha']. simpl.
  rewrite update_history_wf by done.
  eexists. split; [done|]. split; [by apply record_round_wf|by apply Hstep].
Qed.

(** X6.  A Grudger that defects against an opponent keeps defecting against
    it whatever rounds are recorded afterwards, against that opponent or
    others. *)
Theorem grudger_never_forgives :
  ∀ (a : Agent) (o : string) (l : list (string * Action * Action)),
    agent_wf a →
    GrudgerAgent_choose_action o a = (a, Return Defect) →
    ∃ a', update_all l a = (a', Return ()) ∧
          GrudgerAgent_choose_action o a' = (a', Return Defect).
Proof.
  intros a o l Hwf Hdef.
  assert (∀ a', agent_wf a' →
            (GrudgerAgent_choose_action o a' = (a', Return Defect) ↔
               Defect ∈ recorded (oponent_history a') o)) as Hiff.
  { intros a' Hwf'.
    pose proof (choose_action_of_strategy GrudgerAgent o a' Hwf') as E.
    simpl in E. rewrite E by done.
    case_bool_decide; split; done. }
  destruct (update_all_wf l a (λ a', Defect ∈ recorded (oponent_history a') o))
    as (a' & Hrun & Hwf' & Ha'); [done|by apply Hiff| |].
  { intros a' o' x y _ Hin.
    destruct (recorded_after_round a' o' x y o) as [_ ->].
    apply elem_of_app. by left. }
  exists a'. split; [done|]. by apply Hiff.
Qed.

Lemma grudger_witness :
  agent_wf grudger_example ∧
  GrudgerAgent_choose_action "b" grudger_example
    = (grudger_example, Return Defect) ∧
  ∃ a', update_all [("b", Defect, Cooperate); ("c", Cooperate, Cooperate)]
          grudger_example = (a', Return ()) ∧
        GrudgerAgent_choose_action "b" a' = (a', Return Defect).
Proof.
  assert (agent_wf grudger_example) as Hwf
    by (apply record_round_wf, new_agent_wf).
  split; [exact Hwf|]. split; [reflexivity|].
  exact (grudger_never_forgives grudger_example "b" _ Hwf eq_refl).
Defined.

(** X7.  What a deterministic agent plays against one opponent depends on
    the rounds recorded against that opponent only: recording a round
    against another name does not change it. *)
Theorem choice_depends_on_that_opponent_only :
  ∀ (c : AgentClass) (a : Agent) (o o' : string) (x y : Action),
    agent_wf a → deterministic c → o' ≠ o →
    ∃ a' z, update_history o' x y a = (a', Return ()) ∧
            choose_action_of c o a = (a, Return z) ∧
            choose_action_of c o a' = (a', Return z).
Proof.
  intros c a o o' x y Hwf Hdet Hne.
  exists (record_round o' x y a), (strategy c (recorded (oponent_history a) o)).
  split_and!.
  - by apply update_history_wf.
  - by apply choose_action_of_strategy.
  - rewrite choose_action_of_strategy by (by try apply record_round_wf).
    destruct (recorded_after_round a o' x y o) as [_ ->].
    by rewrite decide_False, app_nil_r.
Qed.

Lemma choice_depends_witness :
  agent_wf tf2t_example ∧ deterministic TitForTatAgent ∧ "c" ≠ "b" ∧
  ∃ a' z, update_history "c" Cooperate Cooperate tf2t_example = (a', Return ()) ∧
          choose_action_of TitForTatAgent "b" tf2t_example
            = (tf2t_example, Return z) ∧
          choose_action_of TitForTatAgent "b" a' = (a', Return z).
Proof.
  assert (agent_wf tf2t_example) as Hwf
    by (do 2 apply record_round_wf; apply new_agent_wf).
  assert (deterministic TitForTatAgent) as Hdet by discriminate.
  assert ("c" ≠ "b") as Hne by discriminate.
  split; [exact Hwf|]. split; [exact Hdet|]. split; [exact Hne|].
  exact (choice_depends_on_that_opponent_only TitForTatAgent tf2t_example
           "b" "c" Cooperate Cooperate Hwf Hdet Hne).
Defined.

(** ** Runs that play nothing *)

Lemma for_each_skip {S X} (body : X → ST S ()) (l : list X) (s : S) :
  (∀ x, x ∈ l → body x s = (s, Return ())) →
  for_each l body s = (s, Return ()).
Proof.
  induction l as [|x l IH]; intros Hbody; [done|].
  rewrite for_each_cons, Hbody by left. apply IH.
  intros y Hy. apply Hbody. by right.
Qed.

(** X8.  With no round to play, or with fewer than two agents, [run]
    returns and changes nothing: no [play_round] call is made, whatever
    the histories and the payoff matrix are. *)
Theorem run_without_pairs_changes_nothing :
  ∀ w : World,
    rounds (game w) = 0 ∨ length (agents (game w)) ≤ 1 →
    run w = (w, Return ()).
Proof.
  intros w Hw. rewrite run_rounds. apply for_each_skip. intros k Hk.
  destruct Hw as [Hr|Hn].
  - rewrite Hr in Hk. by apply elem_of_nil in Hk.
  - unfold round.
    by destruct (agents (game w)) as [|a [|b l]]; simpl in Hn; [..|lia].
Qed.

Lemma run_without_pairs_witness :
  let w := start {| agents := [ new_agent TitForTatAgent "t" ];
                    payoff_matrix := ∅; rounds := 5 |} (λ _, Defect) in
  length (agents (game w)) ≤ 1 ∧ run w = (w, Return ()).
Proof.
  intros w. assert (length (agents (game w)) ≤ 1) as Hn by (simpl; lia).
  split; [exact Hn|].
  apply run_without_pairs_changes_nothing. right. exact Hn.
Defined.

(** ** Properties kept by every round *)

(** A property of the world that every round keeps, whatever the scores and
    the state of the generator become, holds in every reachable world. *)
Lemma play_round_keeps (I : World → Prop) w i j :
  (∀ w i j a1 a2 z1 z2 d,
     i ≠ j → agents (game w) !! i = Some a1 → agents (game w) !! j = Some a2 →
     world_wf w → I w →
     I (round_world i j a1 a2 (first_action a1 a2 w) (second_action a1 a2 w)
          z1 z2 d w)) →
  world_wf w → i ≠ j →
  i < length (agents (game w)) → j < length (agents (game w)) →
  I w → I (play_round i j w).1.
Proof.
  intros Hstep Hwf Hij Hi Hj Hw.
  destruct (lookup_lt_is_Some_2 _ _ Hi) as [a1 H1].
  destruct (lookup_lt_is_Some_2 _ _ Hj) as [a2 H2].
  rewrite (play_round_run w i j a1 a2) by eauto.
  unfold round_outcome. destruct (payoff_lookup _ _ _); simpl; by apply Hstep.
Qed.

Lemma run_keeps (I : World → Prop) w :
  (∀ w i j a1 a2 z1 z2 d,
     i ≠ j → agents (game w) !! i = Some a1 → agents (game w) !! j = Some a2 →
     world_wf w → I w →
     I (round_world i j a1 a2 (first_action a1 a2 w) (second_action a1 a2 w)
          z1 z2 d w)) →
  world_wf w → I w → I (run w).1.
Proof.
  intros Hstep Hwf Hw. rewrite run_rounds.
  cut (stable w (for_each (seq 0 (rounds (game w))) (λ _, round) w).1 ∧
       I (for_each (seq 0 (rounds (game w))) (λ _, round) w).1).
  { by intros [_ ?]. }
  apply (for_each_preserves (λ s, stable w s ∧ I s));
    [|split; [by apply stable_refl|done]].
  intros _ s _ [Hst Hs]. unfold round.
  pose proof Hst as (Hset & _).
  rewrite (same_setup_length _ _ Hset).
  apply (for_each_preserves (λ s, stable w s ∧ I s)); [|done].
  intros [i j] s' Hp [Hst' Hs']. split; [by apply play_stable|].
  apply elem_of_pairs in Hp as [Hij Hj].
  destruct Hst' as (Hset' & Hwf' & _).
  rewrite <- (same_setup_length _ _ Hset') in Hj.
  unfold play. simpl. apply play_round_keeps; [done|done|lia|lia|done|done].
Qed.

Lemma reachable_keeps (I : World → Prop) w0 w :
  (∀ w i j a1 a2 z1 z2 d,
     i ≠ j → agents (game w) !! i = Some a1 → agents (game w) !! j = Some a2 →
     world_wf w → I w →
     I (round_world i j a1 a2 (first_action a1 a2 w) (second_action a1 a2 w)
          z1 z2 d w)) →
  world_wf w0 → I w0 → reachable w0 w → world_wf w ∧ I w.
Proof.
  intros Hstep Hwf0 H0.
  induction 1 as [|w i j _ [Hwf Hw] Hij Hi Hj|w _ [Hwf Hw]]; [done|..].
  - split; [|by apply play_round_keeps].
    destruct (play_round_world w i j) as
      (a1 & a2 & x1 & x2 & z1 & z2 & d & Hi' & Hj' & ->); [done..|].
    by apply round_world_wf.
  - split; [|by apply run_keeps].
    by destruct (run_stable w Hwf) as (_ & ? & _).
Qed.

(** ** Identity and append-only histories *)

Lemma agent_extends_refl a : agent_extends a a.
Proof. by split_and!. Qed.

Lemma agent_extends_round a0 a o x y z :
  agent_extends a0 a → agent_extends a0 (set_score z (record_round o x y a)).
Proof.
  intros (Hc & Hn & Hl & Hd & Hpre). split_and!; try done.
  intros o'. destruct (recorded_record_round a o x y z o') as [-> ->].
  destruct (Hpre o') as [H1 H2]. split; by apply prefix_app_r.
Qed.

Lemma world_extends_round w0 w i j a1 a2 x1 x2 z1 z2 d :
  i ≠ j → agents (game w) !! i = Some a1 → agents (game w) !! j = Some a2 →
  world_extends w0 w →
  world_extends w0 (round_world i j a1 a2 x1 x2 z1 z2 d w).
Proof.
  intros Hij Hi Hj (Hpm & Hr & Hlen & Hags). split_and!; try done.
  - simpl. by rewrite !length_insert.
  - intros k a0 a Hk0. rewrite round_world_lookup by done.
    destruct (decide (k = j)) as [->|Hkj];
      [|destruct (decide (k = i)) as [->|Hki]].
    + intros [= <-]. apply agent_extends_round. by apply (Hags j).
    + intros [= <-]. apply agent_extends_round. by apply (Hags i).
    + by apply Hags.
Qed.

(** X9.  Whatever [play_round] and [run] calls are made, returning or
    raising, from a world with well-formed histories: the game keeps its
    payoff matrix, its number of rounds and its agents, in the same order;
    every agent keeps its class, name, label and description, so that
    [__str__] and the labels of [visualize_scores] do not change; and the
    lists of the two histories are only ever extended at the end, never
    shortened, rewritten or removed. *)
Theorem run_only_appends_to_histories :
  ∀ w0 w,
    world_wf w0 → reachable w0 w →
    payoff_matrix (game w) = payoff_matrix (game w0) ∧
    rounds (game w) = rounds (game w0) ∧
    length (agents (game w)) = length (agents (game w0)) ∧
    class_of <$> agents (game w) = class_of <$> agents (game w0) ∧
    Agent_str <$> agents (game w) = Agent_str <$> agents (game w0) ∧
    names_labels (game w) = names_labels (game w0) ∧
    ∀ i a0 a,
      agents (game w0) !! i = Some a0 → agents (game w) !! i = Some a →
      (∀ o h, history a0 !! o = Some h →
              ∃ ext, history a !! o = Some (h ++ ext)) ∧
      (∀ o oh, oponent_history a0 !! o = Some oh →
               ∃ ext, oponent_history a !! o = Some (oh ++ ext)).
Proof.
  intros w0 w Hwf0 Hreach.
  destruct (reachable_keeps (world_extends w0) w0 w) as [Hwf Hext];
    [|done| |done|].
  { intros. by apply world_extends_round. }
  { split_and!; try done. intros i a0 a H1 H2.
    assert (a = a0) as -> by congruence. apply agent_extends_refl. }
  destruct Hext as (Hpm & Hr & Hlen & Hags).
  assert (∀ (f : Agent → string),
            (∀ a0 a, agent_extends a0 a → f a = f a0) →
            f <$> agents (game w) = f <$> agents (game w0)) as Hmap.
  { intros f Hf. apply list_eq. intros i. rewrite !list_lookup_fmap.
    destruct (agents (game w0) !! i) as [a0|] eqn:H0.
    - destruct (lookup_lt_is_Some_2 (agents (game w)) i) as [a Ha].
      { rewrite Hlen. by eapply lookup_lt_Some. }
      rewrite Ha. simpl. f_equal. apply Hf. by apply (Hags i).
    - apply lookup_ge_None in H0. rewrite <- Hlen in H0.
      apply lookup_ge_None in H0. by rewrite H0. }
  split_and!; try done.
  - apply list_eq. intros i. rewrite !list_lookup_fmap.
    destruct (agents (game w0) !! i) as [a0|] eqn:H0.
    + destruct (lookup_lt_is_Some_2 (agents (game w)) i) as [a Ha].
      { rewrite Hlen. by eapply lookup_lt_Some. }
      rewrite Ha. simpl. f_equal. by destruct (Hags i a0 a H0 Ha).
    + apply lookup_ge_None in H0. rewrite <- Hlen in H0.
      apply lookup_ge_None in H0. by rewrite H0.
  - apply Hmap. intros a0 a (_ & Hn & Hl & Hd & _).
    unfold Agent_str. by rewrite Hn, Hl, Hd.
  - apply (Hmap (λ a, name a +:+ " (" +:+ label a +:+ ")")).
    intros a0 a (_ & Hn & Hl & _). by rewrite Hn, Hl.
  - intros i a0 a H0 Ha. destruct (Hags i a0 a H0 Ha) as (_ & _ & _ & _ & Hpre).
    pose proof (Hwf0 i a0 H0) as Hwa0. pose proof (Hwf i a Ha) as Hwa.
    split.
    + intros o h Ho. destruct (Hpre o) as [[ext Hext] _].
      unfold recorded in Hext. rewrite Ho in Hext. simpl in Hext.
      exists ext. specialize (Hwa0 o). rewrite Ho in Hwa0.
      destruct (history a !! o) as [h'|]; simpl in Hext; [by subst|].
      destruct h; [|done].
      destruct (oponent_history a0 !! o); simpl in Hwa0; [lia|done].
    + intros o oh Ho. destruct (Hpre o) as [_ [ext Hext]].
      unfold recorded in Hext. rewrite Ho in Hext. simpl in Hext.
      exists ext. specialize (Hwa0 o). rewrite Ho in Hwa0.
      destruct (oponent_history a !! o) as [h'|]; simpl in Hext; [by subst|].
      destruct oh; [|done].
      destruct (history a0 !! o); simpl in Hwa0; [lia|done].
Qed.

Lemma run_only_appends_witness :
  let w0 := start tft_vs_defector_game (λ _, Cooperate) in
  world_wf w0 ∧ reachable w0 (run (run w0).1).1 ∧
  names_labels (game (run (run w0).1).1) = ["tft (TFT)"; "d (D)"].
Proof.
  intros w0.
  assert (reachable w0 (run (run w0).1).1) as Hreach
    by (do 2 apply reachable_run; apply reachable_start).
  split; [exact (tft_vs_defector_wf _)|]. split; [exact Hreach|].
  destruct (run_only_appends_to_histories w0 _ (tft_vs_defector_wf _) Hreach)
    as (_ & _ & _ & _ & _ & H & _).
  rewrite H. reflexivity.
Defined.

(** ** Every recorded action is the one the strategy prescribes *)

Lemma recorded_lengths a o :
  agent_wf a →
  length (recorded (history a) o) = length (recorded (oponent_history a) o).
Proof.
  intros Hwf. specialize (Hwf o). unfold recorded.
  destruct (history a !! o), (oponent_history a !! o); simpl; try done; lia.
Qed.

Lemma follows_strategy_round a o x y z :
  agent_wf a → follows_strategy a →
  x = strategy (class_of a) (recorded (oponent_history a) o) →
  follows_strategy (set_score z (record_round o x y a)).
Proof.
  intros Hwf Hfol Hx o' k x'.
  destruct (recorded_record_round a o x y z o') as [-> ->].
  change (class_of (set_score z (record_round o x y a))) with (class_of a).
  pose proof (recorded_lengths a o' Hwf) as Hlen.
  destruct (decide (o = o')) as [<-|Hne].
  - destruct (decide (k < length (recorded (history a) o))) as [Hk|Hk].
    + rewrite lookup_app_l by done. rewrite take_app_le by lia. apply Hfol.
    + rewrite lookup_app_r by lia.
      destruct (k - length (recorded (history a) o)) as [|k'] eqn:Hk';
        simpl; [|done].
      intros [= <-]. assert (k = length (recorded (oponent_history a) o)) as ->
        by lia.
      by rewrite take_app_length.
  - rewrite !app_nil_r. apply Hfol.
Qed.

Lemma pick_deterministic w a o :
  agent_wf a → deterministic (class_of a) →
  pick w a o = strategy (class_of a) (recorded (oponent_history a) o).
Proof.
  intros Hwf Hdet. unfold pick, chosen.
  destruct (class_of a) eqn:Hc; try done;
    by rewrite choose_action_of_strategy by done.
Qed.

Lemma follows_strategy_world w i j a1 a2 z1 z2 d :
  i ≠ j → agents (game w) !! i = Some a1 → agents (game w) !! j = Some a2 →
  world_wf w →
  (∀ k a, agents (game w) !! k = Some a → deterministic (class_of a) →
          follows_strategy a) →
  ∀ k a,
    agents (game (round_world i j a1 a2 (first_action a1 a2 w)
                    (second_action a1 a2 w) z1 z2 d w)) !! k = Some a →
    deterministic (class_of a) → follows_strategy a.
Proof.
  intros Hij Hi Hj Hwf Hall k a. rewrite round_world_lookup by done.
  destruct (decide (k = j)) as [->|Hkj];
    [|destruct (decide (k = i)) as [->|Hki]].
  - intros [= <-] Hdet. apply follows_strategy_round; eauto.
    unfold second_action. apply pick_deterministic; eauto.
  - intros [= <-] Hdet. apply follows_strategy_round; eauto.
    unfold first_action. apply pick_deterministic; eauto.
  - eauto.
Qed.

(** X10.  In a game built by [__init__], after any [play_round] and [run]
    calls, returning or raising, every action that an agent of a
    deterministic class has recorded as its own is the one its class plays
    against the actions that the opponent had played in the earlier rounds
    between the two: round [k] of the own list is the strategy applied to
    the first [k] actions of the opponent's list, and to nothing else. *)
Theorem recorded_actions_follow_the_strategy :
  ∀ cfg f g rnd w,
    PrisonersDilemma_init cfg f = Return g →
    reachable (start g rnd) w →
    ∀ i a o h oh k x,
      agents (game w) !! i = Some a → deterministic (class_of a) →
      history a !! o = Some h → oponent_history a !! o = Some oh →
      h !! k = Some x →
      x = strategy (class_of a) (take k oh).
Proof.
  intros cfg f g rnd w Hinit Hreach.
  destruct (init_fresh _ _ _ Hinit) as (Hfr & _).
  destruct (reachable_keeps
              (λ w, ∀ k a, agents (game w) !! k = Some a →
                           deterministic (class_of a) → follows_strategy a)
              (start g rnd) w) as [Hwf Hall]; [|by apply start_wf| |done|].
  { intros w' i j a1 a2 z1 z2 d Hij Hi Hj Hwf' Hall'.
    by apply follows_strategy_world. }
  { intros k a Hk _ o k' x.
    destruct (proj1 (Forall_lookup _ _) Hfr k a Hk) as (Hh & _).
    unfold recorded. by rewrite Hh, lookup_empty. }
  intros i a o h oh k x Hi Hdet Hh Hoh Hk.
  pose proof (Hall i a Hi Hdet o k x) as H. unfold recorded in H.
  rewrite Hh, Hoh in H. by apply H.
Qed.

Lemma recorded_actions_witness :
  let w := (run (start tft_vs_defector_game (λ _, Cooperate))).1 in
  let a := set_score 2
             (set_oponent_history {[ "d" := [Defect; Defect; Defect] ]}
                (set_history {[ "d" := [Cooperate; Defect; Defect] ]}
                   (new_agent TitForTatAgent "tft"))) in
  agents (game w) !! 0 = Some a ∧ deterministic (class_of a) ∧
  Defect = strategy TitForTatAgent (take 2 [Defect; Defect; Defect]).
Proof.
  intros w a.
  assert (agents (game w) !! 0 = Some a) as Hi by (by vm_compute).
  assert (deterministic (class_of a)) as Hdet by discriminate.
  split; [exact Hi|]. split; [exact Hdet|].
  apply (recorded_actions_follow_the_strategy tft_vs_defector factory
           tft_vs_defector_game (λ _, Cooperate) w eq_refl
           (reachable_run _ _ (reachable_start _))
           0 a "d" [Cooperate; Defect; Defect] [Defect; Defect; Defect] 2 Defect
           Hi Hdet eq_refl eq_refl eq_refl).
Defined.

(** ** Every pair plays as many rounds as configured *)

Lemma count_zero {X} (f : X → nat) (l : list X) :
  (∀ p, p ∈ l → f p = 0) → foldr (λ p n, f p + n) 0 l = 0.
Proof.
  induction l as [|p l IH]; intros Hf; simpl; [done|].
  rewrite Hf by left. apply IH. intros q Hq. apply Hf. by right.
Qed.

Lemma count_one {X} `{EqDecision X} (f : X → nat) (l : list X) (x0 : X) :
  NoDup l → x0 ∈ l →
  (∀ p, p ∈ l → f p = if decide (p = x0) then 1 else 0) →
  foldr (λ p n, f p + n) 0 l = 1.
Proof.
  induction l as [|p l IH]; intros Hnd Hin Hf; [by apply elem_of_nil in Hin|].
  apply NoDup_cons in Hnd as [Hp Hnd]. simpl.
  rewrite (Hf p) by left. destruct (decide (p = x0)) as [->|Hne].
  - rewrite count_zero; [done|]. intros q Hq.
    rewrite Hf by (by right). rewrite decide_False; [done|]. by intros ->.
  - apply elem_of_cons in Hin as [->|Hin]; [done|].
    apply IH; [done|done|]. intros q Hq. apply Hf. by right.
Qed.

Lemma rounds_with_app nms i o l1 l2 :
  rounds_with nms i o (l1 ++ l2)
  = rounds_with nms i o l1 + rounds_with nms i o l2.
Proof.
  unfold rounds_with. induction l1 as [|p l1 IH]; simpl; [done|].
  rewrite IH. lia.
Qed.

Lemma rounds_with_schedule nms i o r n :
  rounds_with nms i o (schedule r n) = r * rounds_with nms i o (pairs n).
Proof.
  induction r as [|r IH]; [done|].
  rewrite schedule_S, rounds_with_app, IH. lia.
Qed.

(** In one round the agent at [i] meets the agent at [j] once. *)
Lemma rounds_with_pairs_one nms i j o :
  NoDup nms → i ≠ j → i < length nms → nms !! j = Some o →
  rounds_with nms i o (pairs (length nms)) = 1.
Proof.
  intros Hnd Hij Hi Hj. pose proof (lookup_lt_Some _ _ _ Hj) as Hjn.
  assert (∀ k, nms !! k = Some o ↔ k = j) as Hname.
  { intros k. split; [|by intros ->].
    intros Hk. by apply (NoDup_lookup nms k j o). }
  apply (count_one _ _ (if decide (i < j) then (i, j) else (j, i)));
    [apply NoDup_pairs| |].
  - case_decide; apply elem_of_pairs; lia.
  - intros [p1 p2] [H12 H2]%elem_of_pairs. unfold met. simpl.
    destruct (decide (i < j)).
    + destruct (decide ((p1, p2) = (i, j))) as [[= -> ->]|Hne].
      * rewrite decide_True; [done|]. by left.
      * rewrite decide_False; [done|].
        intros [[-> ->%Hname]|[-> ->%Hname]]; [done|lia].
    + destruct (decide ((p1, p2) = (j, i))) as [[= -> ->]|Hne].
      * rewrite decide_True; [done|]. by right.
      * rewrite decide_False; [done|].
        intros [[-> ->%Hname]|[-> ->%Hname]]; [lia|done].
Qed.

(** It meets nobody of a name that no other agent has. *)
Lemma rounds_with_pairs_zero nms i o n :
  (∀ j, j ≠ i → nms !! j ≠ Some o) →
  rounds_with nms i o (pairs n) = 0.
Proof.
  intros Hno. apply count_zero.
  intros [p1 p2] [H12 H2]%elem_of_pairs. unfold met. simpl.
  rewrite decide_False; [done|].
  intros [[-> Hp]|[-> Hp]]; (eapply Hno; [|exact Hp]); lia.
Qed.

(** X11.  In a game built by [__init__] from a configuration with pairwise
    distinct names, when [run] returns every agent has recorded, against
    every other agent, exactly [rounds] own actions and [rounds] opponent
    actions; and it has no entry under any other name, in particular none
    under its own. *)
Theorem every_pair_plays_the_configured_rounds :
  ∀ cfg f g rnd w,
    PrisonersDilemma_init cfg f = Return g →
    NoDup (name <$> agents g) →
    run (start g rnd) = (w, Return ()) →
    ∀ i a,
      agents (game w) !! i = Some a →
      (∀ j b, j ≠ i → agents (game w) !! j = Some b →
              length (recorded (history a) (name b)) = rounds g ∧
              length (recorded (oponent_history a) (name b)) = rounds g) ∧
      (∀ o, (∀ j b, j ≠ i → agents (game w) !! j = Some b → name b ≠ o) →
            history a !! o = None ∧ oponent_history a !! o = None) ∧
      history a !! name a = None.
Proof.
  intros cfg f g rnd w Hinit Hnd Hrun i a Hi.
  destruct (init_fresh _ _ _ Hinit) as (Hfr & _).
  pose proof (start_wf g rnd Hfr) as Hwf0.
  pose proof (run_played _ _ Hwf0 Hrun) as Hpl. simpl in Hpl.
  pose proof (played_wf _ _ _ Hpl Hwf0) as Hwf.
  pose proof (played_setup _ _ _ Hpl) as Hset.
  pose proof (same_setup_length _ _ Hset) as Hlen. simpl in Hlen.
  destruct Hset as (Hnm & _). simpl in Hnm.
  destruct (lookup_lt_is_Some_2 (agents g) i) as [a0 Hi0].
  { rewrite <- Hlen. by eapply lookup_lt_Some. }
  destruct (proj1 (Forall_lookup _ _) Hfr i a0 Hi0) as (Hh0 & Hoh0 & _).
  assert (∀ o, length (recorded (history a) o)
               = rounds g * rounds_with (name <$> agents g) i o
                              (pairs (length (agents g))) ∧
               length (recorded (oponent_history a) o)
               = rounds g * rounds_with (name <$> agents g) i o
                              (pairs (length (agents g)))) as Hcount.
  { intros o.
    destruct (played_histories _ _ _ Hpl i a0 a o Hi0 Hi)
      as (ext & oext & Hl & Hol & He & Hoe). simpl in Hl, Hol.
    unfold recorded in *. rewrite Hh0, lookup_empty in He.
    rewrite Hoh0, lookup_empty in Hoe. simpl in He, Hoe.
    rewrite He, Hoe, Hl, Hol. by rewrite rounds_with_schedule. }
  assert (∀ o, (∀ j b, j ≠ i → agents (game w) !! j = Some b → name b ≠ o) →
               history a !! o = None ∧ oponent_history a !! o = None) as Hnone.
  { intros o Hno. destruct (Hcount o) as [H1 H2].
    rewrite rounds_with_pairs_zero, Nat.mul_0_r in H1, H2.
    2,3: intros j Hj Hlook; rewrite <- Hnm, list_lookup_fmap in Hlook;
         destruct (agents (game w) !! j) as [b|] eqn:Hb; [|done];
         injection Hlook as Hlook; by apply (Hno j b).
    specialize (Hwf i a Hi o). unfold recorded in H1, H2.
    destruct (history a !! o) as [h|], (oponent_history a !! o) as [oh|];
      simpl in *; try done; lia. }
  split_and!.
  - intros j b Hji Hj. destruct (Hcount (name b)) as [H1 H2].
    assert (rounds_with (name <$> agents g) i (name b)
              (pairs (length (agents g))) = 1) as Hone.
    { rewrite <- (length_fmap name (agents g)).
      apply (rounds_with_pairs_one _ i j); [done|done| |].
      - rewrite length_fmap, <- Hlen. by eapply lookup_lt_Some.
      - by rewrite <- Hnm, list_lookup_fmap, Hj. }
    rewrite Hone in H1, H2. lia.
  - done.
  - apply Hnone. intros j b Hji Hj Heq. apply Hji.
    rewrite <- Hnm in Hnd.
    apply (NoDup_lookup _ j i (name a) Hnd); rewrite list_lookup_fmap.
    + rewrite Hj. simpl. by rewrite Heq.
    + by rewrite Hi.
Qed.

Lemma every_pair_plays_witness :
  PrisonersDilemma_init tft_vs_defector factory = Return tft_vs_defector_game ∧
  NoDup (name <$> agents tft_vs_defector_game) ∧
  ∃ w, run (start tft_vs_defector_game (λ _, Cooperate)) = (w, Return ()) ∧
       ∀ i a, agents (game w) !! i = Some a → history a !! name a = None.
Proof.
  assert (NoDup (name <$> agents tft_vs_defector_game)) as Hnd.
  { apply (bool_decide_unpack (NoDup (name <$> agents tft_vs_defector_game))).
    vm_compute. exact I. }
  split; [reflexivity|]. split; [exact Hnd|].
  destruct (run_returns (start tft_vs_defector_game (λ _, Cooperate))
              (tft_vs_defector_wf _) std_matrix_complete) as [w Hw].
  exists w. split; [exact Hw|]. intros i a Hi.
  destruct (every_pair_plays_the_configured_rounds tft_vs_defector factory
              tft_vs_defector_game (λ _, Cooperate) w eq_refl Hnd Hw i a Hi)
    as (_ & _ & H).
  exact H.
Defined.
